(** * BBBP.PY: blood-brain-barrier permeability study

    A shallow embedding of [src/BBB/BBBP.PY].  The script is one
    straight-line sequence of calls into pandas, RDKit and scikit-learn.
    RDKit and the learners are interfaces (type classes) whose members stay
    abstract; the pandas table operations, the stratified split, the
    parameter grid, the grid search and the metrics are written out. *)

From Stdlib Require Import ZArith QArith Qround Floats Ascii String.
From stdpp Require Import base tactics option list strings sorting gmap.

Local Set Warnings "-register-all".
Local Open Scope Z_scope.
Local Open Scope string_scope.
Local Open Scope list_scope.

(** ** Python values held in table cells *)

(** A missing CSV field is read as the float NaN; [PyList] is the list
    returned by [compute_descriptors]. *)
Inductive cell :=
| PyNone
| Str (s : string)
| Int (z : Z)
| Float (x : float)
| Bool (b : bool)
| PyList (l : list cell).

Definition NaN : cell := Float PrimFloat.nan.

(** [pandas.isna] on a scalar of an object column. *)
Definition isna (c : cell) : bool :=
  match c with
  | PyNone => true
  | Float x => PrimFloat.is_nan x
  | _ => false
  end.

Inductive exn :=
| KeyError (key : string)
| TypeError (msg : string)
| ValueError (msg : string).

Inductive result (A : Type) :=
| Ok (a : A)
| Raise (e : exn).
Arguments Ok {A} a.
Arguments Raise {A} e.

Global Instance result_ret : MRet result := λ A a, Ok a.
Global Instance result_bind : MBind result := λ A B f r,
  match r with Ok a => f a | Raise e => Raise e end.

(** ** External collaborators *)

(** The part of RDKit the script calls: [Chem.MolFromSmiles] and five
    members of [Descriptors]. *)
Class RDKit := {
  Mol : Type;
  MolFromSmiles : string → option Mol;
  MolWt : Mol → float;
  MolLogP : Mol → float;
  NumHDonors : Mol → Z;
  NumHAcceptors : Mol → Z;
  TPSA : Mol → float;
}.

(** Hyper-parameters of the three estimator families the script builds.
    [rf_params] holds the five parameters the grid ranges over; the other
    parameters keep their library defaults throughout. *)
Inductive max_features_t := sqrt | log2.

Record rf_params := RF {
  n_estimators : Z;
  max_depth : option Z;
  min_samples_split : Z;
  min_samples_leaf : Z;
  max_features : max_features_t;
}.

Inductive estimator_spec :=
| RandomForestClassifier (p : rf_params) (random_state : option Z)
| LogisticRegression (max_iter : Z)
| GradientBoostingClassifier.

Global Instance max_features_eq_dec : EqDecision max_features_t.
Proof. solve_decision. Defined.
Global Instance rf_params_eq_dec : EqDecision rf_params.
Proof. solve_decision. Defined.

(** [RandomForestClassifier(random_state=42)]: library defaults. *)
Definition rf_defaults : rf_params := RF 100 None 2 1 sqrt.

(** The learners.  [train e w X y] is what [fit] leaves in an estimator
    built as [e]; [w] stands for whatever lies outside the call (the global
    random generator, scheduling), which an estimator with an integer
    [random_state] does not consult ([train_seeded]).  [infer m X] is what
    [predict] returns from a fitted estimator, one label per row.
    [StratifiedKFold k y] is the list of (train, test) index lists of
    [StratifiedKFold(n_splits=k).split(X, y)], or [None] where the
    library refuses the split.  Validation errors raised inside
    [fit] and [predict] are outside this model, and so are
    [feature_importances_], [classification_report] and the plots, which
    only read. *)
Class Sklearn := {
  learned : Type;
  train : estimator_spec → nat → list (list cell) → list Z → learned;
  infer : learned → list (list cell) → list Z;
  StratifiedKFold : nat → list Z → option (list (list nat * list nat));
  train_seeded : ∀ p s w w' X y,
    train (RandomForestClassifier p (Some s)) w X y
    = train (RandomForestClassifier p (Some s)) w' X y;
  infer_length : ∀ m X, length (infer m X) = length X;
  StratifiedKFold_length : ∀ k y folds,
    StratifiedKFold k y = Some folds → length folds = k;
}.

(** [numpy.random.RandomState]: [permutation s n] shuffles [arange(n)],
    [choice s l k] is [choice(l, size=k, replace=False)]. *)
Class NumpyRandom := {
  RandomState : Type;
  seed : Z → RandomState;
  permutation : RandomState → nat → list nat * RandomState;
  choice : RandomState → list nat → nat → list nat * RandomState;
  permutation_spec : ∀ s n, (permutation s n).1 ≡ₚ seq 0 n;
  choice_submseteq : ∀ s l k, (k ≤ length l)%nat → (choice s l k).1 ⊆+ l;
  choice_length : ∀ s l k, (k ≤ length l)%nat → length (choice s l k).1 = k;
}.

(** ** pandas tables *)

(** A table is its column labels and its rows; a row carries its index
    label and its cells, each under its column label, in column order.
    [read_csv] yields unique column labels, the index [0..n-1] and rows
    that follow the header ([well_formed]); [pd.concat] may repeat a
    column label. *)
Record row := Row { ix : nat; cells : list (string * cell) }.
Record DataFrame := Frame { columns : list string; rows : list row }.

(** A column taken out of a table: index label and value. *)
Definition Series : Type := list (nat * cell).

Definition well_formed (df : DataFrame) : Prop :=
  NoDup (columns df) ∧ NoDup (ix <$> rows df)
  ∧ Forall (λ r, (cells r).*1 = columns df) (rows df).

(** The cell under the first column labelled [name]. *)
Fixpoint get (name : string) (cs : list (string * cell)) : cell :=
  match cs with
  | [] => NaN
  | (k, x) :: cs => if decide (k = name) then x else get name cs
  end.

(** Overwrite the cell under [name], or append it as a new last column. *)
Fixpoint assign (name : string) (v : cell) (cs : list (string * cell)) : list (string * cell) :=
  match cs with
  | [] => [(name, v)]
  | (k, x) :: cs => if decide (k = name) then (k, v) :: cs else (k, x) :: assign name v cs
  end.

(** Value of a series at an index label. *)
Fixpoint loc (s : Series) (i : nat) : option cell :=
  match s with
  | [] => None
  | (j, c) :: s => if decide (j = i) then Some c else loc s i
  end.

(** [df[name]] *)
Definition getitem (name : string) (df : DataFrame) : result Series :=
  if decide (name ∈ columns df)
  then Ok ((λ r, (ix r, get name (cells r))) <$> rows df)
  else Raise (KeyError name).

(** [df.dropna(subset=[name])] *)
Definition dropna (name : string) (df : DataFrame) : result DataFrame :=
  if decide (name ∈ columns df)
  then Ok (Frame (columns df) (filter (λ r, isna (get name (cells r)) = false) (rows df)))
  else Raise (KeyError name).

(** [df[name] = s]: the series is aligned on the index of [df], a label it
    lacks gives NaN; an existing column is overwritten in place, a new one
    is appended. *)
Definition setitem (name : string) (s : Series) (df : DataFrame) : DataFrame :=
  Frame (if decide (name ∈ columns df) then columns df else columns df ++ [name])
        ((λ r, Row (ix r) (assign name (default NaN (loc s (ix r))) (cells r))) <$> rows df).

(** [df.drop(columns=[name])]: every column carrying the label goes. *)
Definition drop_columns (name : string) (df : DataFrame) : result DataFrame :=
  if decide (name ∈ columns df)
  then Ok (Frame (filter (λ c, c ≠ name) (columns df))
                 ((λ r, Row (ix r) (filter (λ kx, kx.1 ≠ name) (cells r))) <$> rows df))
  else Raise (KeyError name).

(** [df.reset_index(drop=True)] *)
Definition reset_index (df : DataFrame) : DataFrame :=
  Frame (columns df) (imap (λ i r, Row i (cells r)) (rows df)).

(** [s.tolist()] *)
Definition tolist (s : Series) : list cell := s.*2.

(** The rows [pd.DataFrame(data, columns=names)] builds from a list of
    lists, each as long as [names] (what the script passes); other shapes
    are refused. *)
Definition as_record (names : list string) (c : cell) : result (list (string * cell)) :=
  match c with
  | PyList l =>
      if decide (length l = length names) then Ok (zip names l)
      else Raise (ValueError "columns passed do not match the data")
  | _ => Raise (ValueError "columns passed do not match the data")
  end.

Fixpoint records (names : list string) (data : list cell) : result (list (list (string * cell))) :=
  match data with
  | [] => Ok []
  | c :: data => l ← as_record names c; ls ← records names data; mret (l :: ls)
  end.

Definition find_row (i : nat) (rs : list row) : option row :=
  snd <$> list_find (λ r, ix r = i) rs.

Module pd.

(** [pd.concat([a, b], axis=1)]: the outer join of the two tables on
    their index labels. *)
Definition concat (a b : DataFrame) : DataFrame :=
  let pad (df : DataFrame) := (λ c, (c, NaN)) <$> columns df in
  let joined r :=
    Row (ix r) (cells r ++ from_option cells (pad b) (find_row (ix r) (rows b))) in
  let only_b r := Row (ix r) (pad a ++ cells r) in
  Frame (columns a ++ columns b)
        ((joined <$> rows a)
         ++ (only_b <$> filter (λ r, find_row (ix r) (rows a) = None) (rows b))).

(** [pd.DataFrame(data, columns=names)]: the index is [0..n-1]. *)
Definition DataFrame (data : list cell) (names : list string) : result DataFrame :=
  ls ← records names data;
  mret (Frame names (imap (λ i l, Row i l) ls)).

End pd.

(** [df[names]]: for each name, in order, every column carrying it; a name
    that labels no column is a [KeyError]. *)
Definition labelled (n : string) (cs : list (string * cell)) : list (string * cell) :=
  filter (λ kx, kx.1 = n) cs.

Definition getitem_list (names : list string) (df : DataFrame) : result DataFrame :=
  match head (filter (λ n, n ∉ columns df) names) with
  | Some n => Raise (KeyError n)
  | None =>
      Ok (Frame (names ≫= λ n, filter (λ c, c = n) (columns df))
                ((λ r, Row (ix r) (names ≫= λ n, labelled n (cells r))) <$> rows df))
  end.

(** [df[key]] for a series [key].  pandas takes the key for a boolean
    mask when it holds booleans and nothing else, and at least one
    ([is_bool_indexer] on a column of objects); the mask is aligned on
    the index of [df].  A key of booleans and missing values is refused.
    Any other key is read as a list of column labels: an empty series,
    which is what [apply] returns on a column without rows, selects no
    column at all. *)
Definition truthy (c : cell) : bool :=
  match c with Bool true => true | _ => false end.

Definition is_bool (c : cell) : bool :=
  match c with Bool _ => true | _ => false end.

Definition is_bool_array (skipna : bool) (values : list cell) : bool :=
  match values with
  | [] => false
  | _ => forallb (λ c, is_bool c || (skipna && isna c)) values
  end.

Fixpoint as_labels (values : list cell) : result (list string) :=
  match values with
  | [] => Ok []
  | Str s :: values => names ← as_labels values; mret (s :: names)
  | _ :: _ => Raise (KeyError "the key is not a column label")
  end.

Definition getitem_mask (key : Series) (df : DataFrame) : result DataFrame :=
  if is_bool_array false (tolist key) then
    Ok (Frame (columns df)
              (filter (λ r, from_option truthy false (loc key (ix r)) = true) (rows df)))
  else if is_bool_array true (tolist key) then
    Raise (ValueError "Cannot mask with non-boolean array containing NA / NaN values")
  else
    names ← as_labels (tolist key); getitem_list names df.

(** ** numpy and scikit-learn: arrays, metrics, the parameter grid *)

(** [X.values], as the learners see it. *)
Definition to_numpy (X : DataFrame) : list (list cell) :=
  (λ r, (cells r).*2) <$> rows X.

(** Class labels.  scikit-learn compares and sorts the labels of [y] and
    works on their ranks; here a label is coded by an integer, in an
    order-preserving way: an integer or boolean by itself, a binary64
    number whose value is an integer by that integer (so that 1.0 is the
    class 1), a string by its rank among the strings of the column
    (strings are bytes here, and the order of UTF-8 bytes is Python's
    order of code points).  A column of numbers of which one is not an
    integer is a continuous target: the split of line 56 still groups it
    by value, here by the values scaled by 2^1074, which makes every
    finite binary64 number an integer; the classifiers refuse it
    ([continuous_part]).  A missing or infinite label is refused at line
    56; labels of different kinds, which [read_csv] never yields in one
    column, cannot be sorted. *)
Definition float_integer (x : float) : option Z :=
  match Prim2SF x with
  | S754_zero _ => Some 0
  | S754_finite s m e =>
      let magnitude :=
        if (0 <=? e)%Z then Some (Z.pos m * 2 ^ e)
        else if (Z.pos m mod 2 ^ (- e) =? 0)%Z then Some (Z.pos m / 2 ^ (- e))
        else None in
      (λ v, if s then - v else v) <$> magnitude
  | _ => None
  end.

Definition float_scaled (x : float) : option Z :=
  match Prim2SF x with
  | S754_zero _ => Some 0
  | S754_finite s m e =>
      let v := Z.pos m * 2 ^ (e + 1074) in Some (if s then - v else v)
  | _ => None
  end.

Definition is_infinite (c : cell) : bool :=
  match c with
  | Float x => match Prim2SF x with S754_infinity _ => true | _ => false end
  | _ => false
  end.

Definition label_int (c : cell) : option Z :=
  match c with
  | Int z => Some z
  | Bool b => Some (Z.b2z b)
  | Float x => float_integer x
  | _ => None
  end.

Definition label_scaled (c : cell) : option Z :=
  match c with
  | Int z => Some (z * 2 ^ 1074)
  | Bool b => Some (Z.b2z b * 2 ^ 1074)
  | Float x => float_scaled x
  | _ => None
  end.

Definition label_str (c : cell) : option string :=
  match c with Str s => Some s | _ => None end.

Definition rank (strs : list string) (s : string) : Z :=
  Z.of_nat (length (filter (λ t, String.ltb t s = true) (remove_dups strs))).

Definition labels_of (y : list cell) : result (list Z) :=
  if existsb isna y then Raise (ValueError "Input y contains NaN")
  else if existsb is_infinite y then Raise (ValueError "Input y contains infinity")
  else
    match mapM label_int y, mapM label_scaled y, mapM label_str y with
    | Some zs, _, _ => Ok zs
    | None, Some zs, _ => Ok zs
    | None, None, Some strs => Ok (rank strs <$> strs)
    | None, None, None => Raise (TypeError "labels of different kinds are not ordered")
    end.

(** [type_of_target] is continuous: on the column, and on a part of a
    continuous column, given by its codes. *)
Definition is_continuous (y : list cell) : bool :=
  match mapM label_int y, mapM label_scaled y with
  | None, Some _ => true
  | _, _ => false
  end.

Definition continuous_part (codes : list Z) : bool :=
  existsb (λ z, negb (z mod 2 ^ 1074 =? 0)%Z) codes.

(** [np.unique]: the distinct values, ascending. *)
Definition unique (y : list Z) : list Z := merge_sort Z.le (remove_dups y).

(** How often a label occurs, and where (positions ascending). *)
Definition count_of (c : Z) (y : list Z) : nat := length (filter (λ v, v = c) y).

Definition where_ (c : Z) (y : list Z) : list nat :=
  filter (λ i, y !! i = Some c) (seq 0 (length y)).

(** How many of the positions [l] carry the label [c]. *)
Definition cnt (y : list Z) (c : Z) (l : list nat) : nat :=
  length (filter (λ i, y !! i = Some c) l).

(** The positions whose remainder is [v]. *)
Definition at_remainder (remainder : list nat) (v : nat) : list nat :=
  filter (λ i, remainder !! i = Some v) (seq 0 (length remainder)).

(** Within one sample of the share: [k] of the [n'] records of a part
    against [C] of all [n] records. *)
Definition proportional (k n' C n : nat) : Prop :=
  (k * n ≤ C * n' + n ∧ C * n' ≤ k * n + n)%nat.

(** [a[idx]] for a list of positions of [a]. *)
Definition take_rows {A} (a : list A) (idx : list nat) : list A :=
  omap (λ i, a !! i) idx.

(** [a[inds] += 1] *)
Definition bump (inds : list nat) (a : list nat) : list nat :=
  imap (λ i x, if decide (i ∈ inds) then S x else x) a.

(** [accuracy_score]: the fraction of positions where the two agree. *)
Definition matches (y_true y_pred : list Z) : nat :=
  length (filter (λ tp, tp.1 = tp.2) (zip y_true y_pred)).

Definition accuracy_score (y_true y_pred : list Z) : Q :=
  (inject_Z (Z.of_nat (matches y_true y_pred)) / inject_Z (Z.of_nat (length y_true)))%Q.

(** [confusion_matrix(y_true, y_pred)]: rows are the true label, columns
    the predicted one, both over the sorted labels that occur in either
    argument. *)
Definition cm_count (y_true y_pred : list Z) (t p : Z) : nat :=
  length (filter (λ tp, tp.1 = t ∧ tp.2 = p) (zip y_true y_pred)).

Definition confusion_matrix (y_true y_pred : list Z) : result (list (list nat)) :=
  if decide (length y_true = length y_pred) then
    let labels := unique (y_true ++ y_pred) in
    Ok ((λ t, (λ p, cm_count y_true y_pred t p) <$> labels) <$> labels)
  else Raise (ValueError "inconsistent numbers of samples").

(** The sum of a matrix's diagonal, and its column [j]. *)
Definition diagonal (cm : list (list nat)) : nat :=
  sum_list (imap (λ i row, default 0%nat (row !! i)) cm).

Definition column (j : nat) (cm : list (list nat)) : list nat :=
  (λ row, default 0%nat (row !! j)) <$> cm.

(** The grid of line 61, and [ParameterGrid]: the keys are taken in
    alphabetical order and the last one varies fastest. *)
Record grid := Grid {
  grid_n_estimators : list Z;
  grid_max_depth : list (option Z);
  grid_min_samples_split : list Z;
  grid_min_samples_leaf : list Z;
  grid_max_features : list max_features_t;
}.

Definition param_grid : grid := {|
  grid_n_estimators := [100; 200];
  grid_max_depth := [None; Some 10; Some 20];
  grid_min_samples_split := [2; 5];
  grid_min_samples_leaf := [1; 2];
  grid_max_features := [sqrt; log2];
|}.

Definition ParameterGrid (g : grid) : list rf_params :=
  d ← grid_max_depth g;
  f ← grid_max_features g;
  l ← grid_min_samples_leaf g;
  s ← grid_min_samples_split g;
  n ← grid_n_estimators g;
  [RF n d s l f].

Definition mean (scores : list Q) : Q :=
  (foldr Qplus 0 scores / inject_Z (Z.of_nat (length scores)))%Q.

(** Position of the first maximal score ([rank_test_score] ranks ties
    alike and [argmin] takes the first of rank 1). *)
Fixpoint argmax_from (best : nat) (best_score : Q) (i : nat) (scores : list Q) : nat :=
  match scores with
  | [] => best
  | s :: scores =>
      if Qlt_le_dec best_score s then argmax_from i s (S i) scores
      else argmax_from best best_score (S i) scores
  end.

Definition argmax (scores : list Q) : nat :=
  match scores with
  | [] => 0%nat
  | s :: scores => argmax_from 0 s 1 scores
  end.

(** ** The run: log, object store, exceptions *)

(** An estimator object: how it was built, and the attributes [fit] set. *)
Record estimator `{Sklearn} := Estimator {
  spec : estimator_spec;
  fitted : option learned;
}.
Arguments Estimator {_} _ _.

(** Calls into the collaborators, in the order the script makes them. *)
Inductive event :=
| MolFromSmiles_called (smiles : string)
| train_test_split_called
| GridSearchCV_fit_called
| fit_called (obj : nat)
| predict_called (obj : nat).

Record state `{Sklearn} := State {
  log : list event;
  heap : gmap nat estimator;
  clock : nat;
}.

Section Run.
Context `{RDKit, Sklearn, NumpyRandom}.

Definition M (A : Type) : Type := state → result A * state.

Global Instance M_ret : MRet M := λ A a σ, (Ok a, σ).
Global Instance M_bind : MBind M := λ A B f m σ,
  match m σ with
  | (Ok a, σ') => f a σ'
  | (Raise e, σ') => (Raise e, σ')
  end.

Definition lift {A} (r : result A) : M A := λ σ, (r, σ).
Definition raise {A} (e : exn) : M A := lift (Raise e).
Definition logged (evs : list event) (σ : state) : state :=
  {| log := log σ ++ evs; heap := heap σ; clock := clock σ |}.

Definition emit (ev : event) : M unit := λ σ, (Ok (), logged [ev] σ).
Definition now : M nat := λ σ, (Ok (clock σ), σ).

Fixpoint mapM_ {A B} (f : A → M B) (l : list A) : M (list B) :=
  match l with
  | [] => mret []
  | a :: l => b ← f a; bs ← mapM_ f l; mret (b :: bs)
  end.

(** *** Lines 19-29: the descriptor function *)

(** [Chem.MolFromSmiles(x)]: a parse failure is [None], not an
    exception; an argument that is not a string is refused by the
    binding (a [TypeError]). *)
Definition Chem_MolFromSmiles (x : cell) : M (option Mol) :=
  match x with
  | Str s => _ ← emit (MolFromSmiles_called s); mret (MolFromSmiles s)
  | _ => raise (TypeError "MolFromSmiles: argument is not a string")
  end.

Definition compute_descriptors (smiles : cell) : M cell :=
  mol ← Chem_MolFromSmiles smiles;
  match mol with
  | None => mret PyNone
  | Some mol =>
      mret (PyList [Float (MolWt mol);
                    Float (MolLogP mol);
                    Int (NumHDonors mol);
                    Int (NumHAcceptors mol);
                    Float (TPSA mol)])
  end.

(** [s.apply(f)]: [f] is called on each value in turn. *)
Definition apply (f : cell → M cell) (s : Series) : M Series :=
  mapM_ (λ ic, c ← f ic.2; mret (ic.1, c)) s.

(** *** Lines 15-16: load and clean *)
Definition load (csv : DataFrame) : M DataFrame :=
  lift (dropna "smiles" csv).

(** *** Lines 31-37: features, and the two filters *)
Definition add_features (df : DataFrame) : M DataFrame :=
  smiles ← lift (getitem "smiles" df);
  features ← apply compute_descriptors smiles;
  lift (dropna "features" (setitem "features" features df)).

Definition is_valid (x : cell) : M cell :=
  Chem_MolFromSmiles x ≫= λ mol : option Mol,
  mret (Bool (match mol with Some _ => true | None => false end)).

Definition filter_valid (df : DataFrame) : M DataFrame :=
  smiles ← lift (getitem "smiles" df);
  valid ← apply is_valid smiles;
  let df := setitem "valid_smiles" valid df in
  mask ← lift (getitem "valid_smiles" df);
  df ← lift (getitem_mask mask df);
  lift (drop_columns "valid_smiles" df).

(** *** Lines 39-42: split feature columns *)
Definition descriptor_names : list string :=
  ["MolWt"; "MolLogP"; "NumHDonors"; "NumHAcceptors"; "TPSA"].

Definition assemble (df : DataFrame) : M DataFrame :=
  features ← lift (getitem "features" df);
  features_df ← lift (pd.DataFrame (tolist features) descriptor_names);
  mret (pd.concat (reset_index df) features_df).

(** *** Lines 44-46: X and y *)
Definition define_X_y (df : DataFrame) : M (DataFrame * Series) :=
  X ← lift (getitem_list descriptor_names df);
  y ← lift (getitem "p_np" df);
  mret (X, y).

(** Lines 15-46. *)
Definition prepare (csv : DataFrame) : M (DataFrame * Series) :=
  df ← load csv;
  df ← add_features df;
  df ← filter_valid df;
  df ← assemble df;
  define_X_y df.

(** *** Lines 55-58: the stratified split *)

(** [_approximate_mode(class_counts, n_draws, rng)]: each class gets the
    floor of its share of [n_draws]; the draws still missing go to the
    classes with the largest remainders, ties drawn by [rng].  The
    shares are taken exactly; the library computes them in binary64. *)
Fixpoint add_by_remainder (remainder values floored : list nat) (need_to_add : nat)
    (rng : RandomState) : list nat * RandomState :=
  match values with
  | [] => (floored, rng)
  | value :: values =>
      let inds := filter (λ i, remainder !! i = Some value) (seq 0 (length remainder)) in
      let add_now := (length inds `min` need_to_add)%nat in
      let '(inds, rng) := choice rng inds add_now in
      let floored := bump inds floored in
      let need_to_add := (need_to_add - add_now)%nat in
      if decide (need_to_add = 0%nat) then (floored, rng)
      else add_by_remainder remainder values floored need_to_add rng
  end.

Definition approximate_mode (class_counts : list nat) (n_draws : nat) (rng : RandomState)
  : list nat * RandomState :=
  let total := sum_list class_counts in
  let floored := (λ c, c * n_draws / total)%nat <$> class_counts in
  let need_to_add := (n_draws - sum_list floored)%nat in
  if decide (0 < need_to_add)%nat then
    let remainder := (λ c, (c * n_draws) `mod` total)%nat <$> class_counts in
    let values := reverse (merge_sort le (remove_dups remainder)) in
    add_by_remainder remainder values floored need_to_add rng
  else (floored, rng).

(** [rng.permutation(a)] for an array. *)
Definition shuffle (a : list nat) (rng : RandomState) : list nat * RandomState :=
  let '(perm, rng) := permutation rng (length a) in
  (take_rows a perm, rng).

(** The loop over the classes in [_iter_indices]. *)
Fixpoint split_classes (n_i t_i : list nat) (class_indices : list (list nat))
    (rng : RandomState) : list nat * list nat * RandomState :=
  match class_indices, n_i, t_i with
  | indices :: class_indices, n :: n_i, t :: t_i =>
      let '(perm_indices_class_i, rng) := shuffle indices rng in
      let '(train, test, rng) := split_classes n_i t_i class_indices rng in
      (take n perm_indices_class_i ++ train,
       take t (drop n perm_indices_class_i) ++ test, rng)
  | _, _, _ => ([], [], rng)
  end.

(** [StratifiedShuffleSplit(test_size=n_test, train_size=n_train,
    random_state=random_state).split(X, y)], first split. *)
Definition StratifiedShuffleSplit (n_train n_test : nat) (random_state : Z) (y : list Z)
  : result (list nat * list nat) :=
  let classes := unique y in
  let class_counts := (λ c, count_of c y) <$> classes in
  if decide (Exists (λ c, c < 2)%nat class_counts) then
    Raise (ValueError "The least populated class in y has only 1 member")
  else if decide (n_train < length classes)%nat then
    Raise (ValueError "The train_size should be greater or equal to the number of classes")
  else if decide (n_test < length classes)%nat then
    Raise (ValueError "The test_size should be greater or equal to the number of classes")
  else
    let class_indices := (λ c, where_ c y) <$> classes in
    let rng := seed random_state in
    let '(n_i, rng) := approximate_mode class_counts n_train rng in
    let class_counts_remaining := zip_with minus class_counts n_i in
    let '(t_i, rng) := approximate_mode class_counts_remaining n_test rng in
    let '(train, test, rng) := split_classes n_i t_i class_indices rng in
    let '(train, rng) := shuffle train rng in
    let '(test, rng) := shuffle test rng in
    Ok (train, test).

(** [train_test_split(X, y, test_size=test_size, stratify=y,
    random_state=random_state)] for a fractional [test_size]: the test
    part has [ceil(test_size * n_samples)] records, the training part
    the rest.  The product is taken exactly; for 0.2 the binary64
    product of the library has the same ceiling. *)
Definition train_test_split (X : list (list cell)) (y : list Z) (test_size : Q)
    (random_state : Z) : result (list (list cell) * list (list cell) * list Z * list Z) :=
  let n_samples := length X in
  if decide (length y ≠ n_samples) then
    Raise (ValueError "Found input variables with inconsistent numbers of samples")
  else
    let n_test := Z.to_nat (Qceiling (test_size * inject_Z (Z.of_nat n_samples))) in
    let n_train := (n_samples - n_test)%nat in
    if decide (n_train = 0%nat) then
      Raise (ValueError "the resulting train set will be empty")
    else
      StratifiedShuffleSplit n_train n_test random_state y ≫= λ '(train, test),
      mret (take_rows X train, take_rows X test, take_rows y train, take_rows y test).

(** *** Estimator objects *)

Definition new (e : estimator_spec) : M nat := λ σ,
  let obj : nat := fresh (dom (heap σ)) in
  (Ok obj, {| log := log σ; heap := <[obj := Estimator e None]> (heap σ);
              clock := clock σ |}).

(** [clf.fit(X, y)] overwrites what an earlier [fit] left in [clf]. *)
Definition fit (clf : nat) (X : list (list cell)) (y : list Z) : M unit := λ σ,
  match heap σ !! clf with
  | Some est =>
      (Ok (), {| log := log σ ++ [fit_called clf];
                 heap := <[clf := Estimator (spec est) (Some (train (spec est) (clock σ) X y))]>
                           (heap σ);
                 clock := S (clock σ) |})
  | None => (Raise (ValueError "no such object"), σ)
  end.

(** [clf.predict(X)] *)
Definition predict (clf : nat) (X : list (list cell)) : M (list Z) := λ σ,
  match heap σ !! clf with
  | Some (Estimator _ (Some m)) => (Ok (infer m X), logged [predict_called clf] σ)
  | _ => (Raise (ValueError "This instance is not fitted yet"), σ)
  end.

(** *** Lines 60-80: the grid search *)

Definition set_params (e : estimator_spec) (p : rf_params) : estimator_spec :=
  match e with
  | RandomForestClassifier _ random_state => RandomForestClassifier p random_state
  | e => e
  end.

(** The score of one candidate on one fold, and over the folds. *)
Definition fold_score (e : estimator_spec) (w : nat) (X : list (list cell)) (y : list Z)
    (fold : list nat * list nat) : Q :=
  let m := train e w (take_rows X fold.1) (take_rows y fold.1) in
  accuracy_score (take_rows y fold.2) (infer m (take_rows X fold.2)).

Definition mean_test_score (e : estimator_spec) (w : nat) (X : list (list cell))
    (y : list Z) (folds : list (list nat * list nat)) : Q :=
  mean (fold_score e w X y <$> folds).

Record GridSearchCV := {
  best_estimator_ : nat;
  best_params_ : rf_params;
  best_index_ : nat;
  mean_test_scores : list Q;
}.

(** [GridSearchCV(estimator, param_grid, cv=cv, scoring='accuracy').fit(X, y)]:
    every candidate of the grid is scored on every fold, the first
    candidate of highest mean score is refitted on all of [X], [y]. *)
Definition GridSearchCV_fit (estimator : estimator_spec) (g : grid) (cv : nat)
    (X : list (list cell)) (y : list Z) : M GridSearchCV :=
  _ ← emit GridSearchCV_fit_called;
  folds ← lift (match StratifiedKFold cv y with
                | Some folds => Ok folds
                | None => Raise (ValueError "n_splits cannot be greater than the number of members in each class")
                end);
  w ← now;
  let candidates := ParameterGrid g in
  let scores := (λ p, mean_test_score (set_params estimator p) w X y folds) <$> candidates in
  best ← lift (match candidates !! argmax scores with
               | Some best => Ok best
               | None => Raise (ValueError "No parameter combination to try")
               end);
  best_estimator ← new (set_params estimator best);
  _ ← fit best_estimator X y;
  mret {| best_estimator_ := best_estimator; best_params_ := best;
          best_index_ := argmax scores; mean_test_scores := scores |}.

(** *** Lines 82-95: evaluation *)
Definition evaluate (best_model : nat) (X_test : list (list cell)) (y_test : list Z)
  : M (Q * list (list nat)) :=
  y_pred ← predict best_model X_test;
  cm ← lift (confusion_matrix y_test y_pred);
  mret (accuracy_score y_test y_pred, cm).

(** *** Lines 105-117: comparing with other models *)

(** The loop of line 113 over [models.items()], in insertion order. *)
Definition compare (models : list (string * nat)) (X_train : list (list cell))
    (y_train : list Z) (X_test : list (list cell)) (y_test : list Z)
  : M (list (string * Q)) :=
  mapM_ (λ name_clf,
           _ ← fit name_clf.2 X_train y_train;
           pred ← predict name_clf.2 X_test;
           mret (name_clf.1, accuracy_score y_test pred))
        models.

(** Lines 106-117: [best_model] itself is entered in the dictionary, the
    two baselines are new objects. *)
Definition compare_models (best_model : nat) (X_train : list (list cell))
    (y_train : list Z) (X_test : list (list cell)) (y_test : list Z)
  : M (list (string * Q)) :=
  lr ← new (LogisticRegression 1000);
  gb ← new GradientBoostingClassifier;
  let models := [("RandomForest", best_model); ("LogisticRegression", lr);
                 ("GradientBoosting", gb)] in
  compare models X_train y_train X_test y_test.

Record report := {
  best_params : rf_params;
  accuracy : Q;
  cm : list (list nat);
  comparison : list (string * Q);
}.

(** Lines 55-95: the split, the search and the evaluation.  With a
    continuous target the search of line 78 fails if the training part
    is continuous (every fit is refused), and otherwise the report of
    line 86 fails on the test part, after the prediction of line 83. *)
Definition tune_and_evaluate (X : DataFrame) (y : Series)
  : M (list (list cell) * list (list cell) * list Z * list Z
       * GridSearchCV * (Q * list (list nat))) :=
  _ ← emit train_test_split_called;
  ys ← lift (labels_of (tolist y));
  split ← lift (train_test_split (to_numpy X) ys (1 # 5) 42);
  let '(X_train, X_test, y_train, y_test) := split in
  let continuous := is_continuous (tolist y) in
  grid_search ←
    (if continuous && continuous_part y_train
     then _ ← emit GridSearchCV_fit_called; raise (ValueError "Unknown label type: continuous")
     else GridSearchCV_fit (RandomForestClassifier rf_defaults (Some 42))
                           param_grid 5 X_train y_train);
  let best_model := best_estimator_ grid_search in
  scores ←
    (if continuous
     then _ ← predict best_model X_test;
          raise (ValueError "Classification metrics cannot handle a mix of targets")
     else evaluate best_model X_test y_test);
  mret (split, grid_search, scores).

(** Lines 55-117. *)
Definition analyse (X : DataFrame) (y : Series) : M report :=
  tuned ← tune_and_evaluate X y;
  let '(X_train, X_test, y_train, y_test, grid_search, scores) := tuned in
  accs ← compare_models (best_estimator_ grid_search) X_train y_train X_test y_test;
  mret {| best_params := best_params_ grid_search; accuracy := scores.1;
          cm := scores.2; comparison := accs |}.

(** The whole script, from the table [read_csv] returned. *)
Definition script (csv : DataFrame) : M report :=
  Xy ← prepare csv;
  analyse Xy.1 Xy.2.

(** Lines 15-37, the stages before the data set is assembled. *)
Definition extraction (csv : DataFrame) : M DataFrame :=
  df ← load csv;
  df ← add_features df;
  filter_valid df.

(** The same lines with lines 35-37 left out. *)
Definition prepare_without_second_filter (csv : DataFrame) : M (DataFrame * Series) :=
  df ← load csv;
  df ← add_features df;
  df ← assemble df;
  define_X_y df.

(** *** What these lines compute, effects aside *)

Definition molecule (x : cell) : option Mol :=
  match x with Str s => MolFromSmiles s | _ => None end.

Definition descriptors (mol : Mol) : list cell :=
  [Float (MolWt mol); Float (MolLogP mol); Int (NumHDonors mol);
   Int (NumHAcceptors mol); Float (TPSA mol)].

Definition features_of (x : cell) : cell :=
  match molecule x with Some mol => PyList (descriptors mol) | None => PyNone end.

Definition is_str (x : cell) : bool :=
  match x with Str _ => true | _ => false end.

Definition smiles (r : row) : cell := get "smiles" (cells r).

(** The record has an identifier, and the identifier parses. *)
Definition parses (r : row) : bool :=
  match molecule (smiles r) with Some _ => true | None => false end.

(** The parser calls [apply] makes over a column. *)
Definition calls (xs : list cell) : list event :=
  omap (λ x, match x with Str s => Some (MolFromSmiles_called s) | _ => None end) xs.

(** The records that reach the data set, and what becomes of each. *)
Definition survivors (csv : DataFrame) : list row :=
  filter (λ r, parses r = true) (rows csv).

Definition with_features (r : row) : list (string * cell) :=
  assign "features" (features_of (smiles r)) (cells r).

(** The rows left by line 16. *)
Definition cleaned (csv : DataFrame) : list row :=
  filter (λ r, isna (smiles r) = false) (rows csv).

(** The five values, under their names. *)
Definition feature_columns (r : row) : list (string * cell) :=
  zip descriptor_names (from_option descriptors [] (molecule (smiles r))).

(** X and y cut from a list of rows: the index is reset, the five new
    columns follow the columns [cols] the rows already have, and the
    descriptor names are selected from the whole. *)
Definition X_from (cols : list string) (rs : list row) : DataFrame :=
  Frame (descriptor_names ≫= λ n, filter (λ c, c = n) (cols ++ descriptor_names))
        (imap (λ i r, Row i (descriptor_names ≫= λ n, labelled n (cells r ++ feature_columns r)))
              rs).

Definition y_from (rs : list row) : Series :=
  imap (λ i r, (i, get "p_np" (cells r))) rs.

Definition X_of (csv : DataFrame) : DataFrame := X_from (columns csv) (survivors csv).
Definition y_of (csv : DataFrame) : Series := y_from (survivors csv).

(** What [is_valid] answers on an identifier. *)
Definition valid_of (x : cell) : cell :=
  Bool (match molecule x with Some _ => true | None => false end).

(** What lines 35-37 leave of a row: the column they add is dropped
    again (and a column of that name in the input goes with it). *)
Definition revalidated (r : row) : list (string * cell) :=
  filter (λ kx, kx.1 ≠ "valid_smiles")
         (assign "valid_smiles" (valid_of (smiles r)) (cells r)).

(** A table as line 32 leaves it: every identifier parses and the
    feature cell holds what [compute_descriptors] returned for it. *)
Definition featured (df : DataFrame) : Prop :=
  "smiles" ∈ columns df ∧ "features" ∈ columns df ∧ NoDup (ix <$> rows df)
  ∧ Forall (λ r, parses r = true ∧ get "features" (cells r) = features_of (smiles r))
           (rows df).

(** The table line 32 leaves. *)
Definition featured_table (csv : DataFrame) : DataFrame :=
  Frame (if decide ("features" ∈ columns csv) then columns csv
         else columns csv ++ ["features"])
        ((λ r, Row (ix r) (with_features r)) <$> survivors csv).

(** What lines 15-46 return on a table that has the identifier column,
    without lines 35-37 and with them: when no identifier parses, the
    mask of line 36 is an empty column, line 36 selects no column and
    line 37 finds no [valid_smiles] to drop. *)
Definition prepared_without_second_filter (csv : DataFrame) : result (DataFrame * Series) :=
  if decide ("p_np" ∈ columns csv) then Ok (X_of csv, y_of csv)
  else Raise (KeyError "p_np").

Definition prepared (csv : DataFrame) : result (DataFrame * Series) :=
  if decide (survivors csv = []) then Raise (KeyError "valid_smiles")
  else prepared_without_second_filter csv.

(** What lines 15-37 return on such a table. *)
Definition extracted (csv : DataFrame) : result DataFrame :=
  if decide (survivors csv = []) then Raise (KeyError "valid_smiles")
  else
    Ok (Frame (filter (λ c, c ≠ "valid_smiles")
                      (if decide ("valid_smiles" ∈ columns (featured_table csv))
                       then columns (featured_table csv)
                       else columns (featured_table csv) ++ ["valid_smiles"]))
              ((λ r, Row (ix r) (revalidated r)) <$> rows (featured_table csv))).

(** Every identifier that is present is a string. *)
Definition identifiers_are_strings (csv : DataFrame) : Prop :=
  Forall (λ r, is_str (smiles r) = true) (cleaned csv).

End Run.

(** ** A small instance, to run the definitions *)

Module Toy.

(** A parser that accepts the strings starting with the letter C; a
    molecule is its number of characters. *)
Definition parse (s : string) : option nat :=
  match s with
  | String "C"%char _ => Some (String.length s)
  | _ => None
  end.

Global Instance rdkit : RDKit := {|
  Mol := nat;
  MolFromSmiles := parse;
  MolWt m := PrimFloat.of_uint63 (Uint63.of_Z (12 * Z.of_nat m));
  MolLogP _ := 0.5%float;
  NumHDonors _ := 0;
  NumHAcceptors m := Z.of_nat m;
  TPSA _ := 0%float;
|}.

(** A learner that always answers the first training label. *)
Global Program Instance sklearn : Sklearn := {|
  learned := Z;
  train _ _ _ y := default 0 (head y);
  infer m X := (λ _, m) <$> X;
  StratifiedKFold k y :=
    Some ((λ i, (filter (λ j, j `mod` k ≠ i) (seq 0 (length y)),
                 filter (λ j, j `mod` k = i) (seq 0 (length y)))%nat) <$> seq 0 k);
|}.
Next Obligation. reflexivity. Qed.
Next Obligation. intros m X. simpl. apply length_fmap. Qed.
Next Obligation. intros k y folds [= <-]. by rewrite length_fmap, length_seq. Qed.

(** A generator that reverses where it should shuffle and draws the
    first elements. *)
Global Program Instance numpy : NumpyRandom := {|
  RandomState := unit;
  seed _ := ();
  permutation s n := (reverse (seq 0 n), s);
  choice s l k := (take k l, s);
|}.
Next Obligation. intros. simpl. by rewrite reverse_Permutation. Qed.
Next Obligation. intros. simpl. apply sublist_submseteq, sublist_take. Qed.
Next Obligation. intros. simpl. rewrite length_take. lia. Qed.

Definition σ0 : state := {| log := []; heap := ∅; clock := 0 |}.

Definition csv : DataFrame :=
  Frame ["name"; "p_np"; "smiles"]
        [Row 0 [("name", Str "ethanol"); ("p_np", Int 1); ("smiles", Str "CCO")];
         Row 1 [("name", Str "bad"); ("p_np", Int 0); ("smiles", Str "xyz")];
         Row 2 [("name", Str "none"); ("p_np", Int 1); ("smiles", NaN)];
         Row 3 [("name", Str "methane"); ("p_np", Int 0); ("smiles", Str "C")]].

(** The same table with a column that is named as a descriptor, and
    one without the label column. *)
Definition csv_with_MolWt : DataFrame :=
  Frame ["MolWt"; "p_np"; "smiles"]
        [Row 0 [("MolWt", Float 46); ("p_np", Int 1); ("smiles", Str "CCO")];
         Row 1 [("MolWt", Float 16); ("p_np", Int 0); ("smiles", Str "C")]].

Definition csv_without_p_np : DataFrame :=
  Frame ["name"; "smiles"]
        [Row 0 [("name", Str "ethanol"); ("smiles", Str "CCO")];
         Row 1 [("name", Str "bad"); ("smiles", Str "xyz")]].

(** A store with one fitted estimator, which answers 1. *)
Definition σ1 : state :=
  {| log := []; clock := 0;
     heap := {[ 0%nat := @Estimator sklearn GradientBoostingClassifier (Some 1) ]} |}.


(** Ten molecules, two of class 0 and eight of class 1. *)
Definition csv_rare_negative : DataFrame :=
  Frame ["p_np"; "smiles"]
        (imap (λ i ls, Row i [("p_np", Int ls.1); ("smiles", Str ls.2)])
              [(1, "C"); (0, "CC"); (1, "CCC"); (1, "CCO"); (1, "CN");
               (1, "CO"); (0, "CCN"); (1, "COC"); (1, "CS"); (1, "CF")]).

(** A table whose identifier column holds a number. *)
Definition csv_numeric : DataFrame :=
  Frame ["p_np"; "smiles"]
        [Row 0 [("p_np", Int 1); ("smiles", Str "CCO")];
         Row 1 [("p_np", Int 0); ("smiles", Int 7)];
         Row 2 [("p_np", Int 1); ("smiles", Str "C")]].

(** A table as line 37 may leave it, with gaps in the index, and the
    list in a row's feature cell. *)
Definition df_featured : DataFrame :=
  Frame ["smiles"; "features"]
        [Row 4 [("smiles", Str "C"); ("features", PyList [Int 1; Int 2; Int 3; Int 4; Int 5])];
         Row 9 [("smiles", Str "CC"); ("features", PyList [Int 6; Int 7; Int 8; Int 9; Int 10])]].

Definition listed (r : row) : list cell :=
  match get "features" (cells r) with PyList l => l | _ => [] end.

(** A table of which no identifier parses, and ten molecules that are
    all of class 1. *)
Definition csv_unparsable : DataFrame :=
  Frame ["p_np"; "smiles"]
        [Row 0 [("p_np", Int 1); ("smiles", Str "xyz")];
         Row 1 [("p_np", Int 0); ("smiles", NaN)]].

Definition csv_all_positive : DataFrame :=
  Frame ["p_np"; "smiles"]
        (imap (λ i s, Row i [("p_np", Int 1); ("smiles", Str s)])
              ["C"; "CC"; "CCC"; "CCO"; "CN"; "CO"; "CCN"; "COC"; "CS"; "CF"]).

(** A feature matrix of [n] rows. *)
Definition X_rows (n : nat) : DataFrame :=
  Frame ["MolWt"] (imap (λ i _, Row i [("MolWt", Float 12)]) (replicate n ())).

(** Labels with a class of one record, and four records of two classes. *)
Definition y_single : Series := [(0%nat, Int 1); (1%nat, Int 0); (2%nat, Int 1)].
Definition y_small : Series :=
  [(0%nat, Int 1); (1%nat, Int 0); (2%nat, Int 1); (3%nat, Int 0)].

End Toy.

(** ** Cells under a label *)

Lemma get_assign_eq n v cs : get n (assign n v cs) = v.
Proof.
  induction cs as [|[k x] cs IH]; simpl.
  - by rewrite decide_True.
  - destruct (decide (k = n)) as [->|]; simpl.
    + by rewrite decide_True.
    + by rewrite decide_False.
Qed.

Lemma get_assign_ne n m v cs : n ≠ m → get n (assign m v cs) = get n cs.
Proof.
  intros Hne. induction cs as [|[k x] cs IH]; simpl.
  - by rewrite decide_False.
  - destruct (decide (k = m)) as [->|]; simpl.
    + by rewrite !decide_False.
    + destruct (decide (k = n)); done.
Qed.

Lemma assign_labels n v cs :
  (assign n v cs).*1 = if decide (n ∈ cs.*1) then cs.*1 else cs.*1 ++ [n].
Proof.
  induction cs as [|[k x] cs IH]; csimpl.
  - done.
  - destruct (decide (k = n)) as [->|Hk]; csimpl.
    + rewrite decide_True; [done|]. left.
    + rewrite IH. destruct (decide (n ∈ cs.*1)) as [Hin|Hin].
      * rewrite decide_True; [done|]. by right.
      * rewrite decide_False; [done|]. intros [?|?]%elem_of_cons; congruence.
Qed.

Lemma labelled_assign_ne n m v cs :
  n ≠ m → labelled n (assign m v cs) = labelled n cs.
Proof.
  intros Hne. unfold labelled. induction cs as [|[k x] cs IH]; simpl.
  - by rewrite filter_cons_False, filter_nil by (simpl; congruence).
  - destruct (decide (k = m)) as [->|].
    + by rewrite !filter_cons_False by (simpl; congruence).
    + rewrite !filter_cons. simpl. destruct (decide (k = n)); by rewrite ?IH.
Qed.

Lemma get_drop_ne n m cs :
  n ≠ m → get n (filter (λ kx, kx.1 ≠ m) cs) = get n cs.
Proof.
  intros Hne. induction cs as [|[k x] cs IH]; [done|].
  rewrite filter_cons. simpl. destruct (decide (k ≠ m)) as [Hk|Hk]; simpl.
  - destruct (decide (k = n)); done.
  - rewrite decide_False; [done|]. intros ->. by apply Hk.
Qed.

Lemma labelled_drop_ne n m cs :
  n ≠ m → labelled n (filter (λ kx, kx.1 ≠ m) cs) = labelled n cs.
Proof.
  intros Hne. unfold labelled. induction cs as [|[k x] cs IH]; [done|].
  rewrite !filter_cons. simpl. destruct (decide (k ≠ m)) as [Hk|Hk].
  - rewrite filter_cons. simpl. destruct (decide (k = n)); by rewrite IH.
  - rewrite decide_False; [done|]. intros ->. by apply Hk.
Qed.

Lemma drop_labels m (cs : list (string * cell)) :
  (filter (λ kx, kx.1 ≠ m) cs).*1 = filter (λ c, c ≠ m) cs.*1.
Proof.
  induction cs as [|[k x] cs IH]; [done|].
  destruct (decide (k ≠ m)).
  - rewrite filter_cons_True by done. csimpl.
    rewrite (filter_cons_True _ k) by done. by rewrite IH.
  - rewrite filter_cons_False by done. csimpl.
    by rewrite (filter_cons_False _ k) by done.
Qed.

Lemma drop_assign_fresh m v cs :
  m ∉ cs.*1 → filter (λ kx, kx.1 ≠ m) (assign m v cs) = cs.
Proof.
  induction cs as [|[k x] cs IH]; simpl; intros Hm.
  - by rewrite filter_cons_False, filter_nil by (simpl; congruence).
  - apply not_elem_of_cons in Hm as [Hk Hm].
    rewrite decide_False by done.
    rewrite filter_cons_True by (simpl; congruence). by rewrite IH.
Qed.

Lemma get_app_l n cs cs' : n ∈ cs.*1 → get n (cs ++ cs') = get n cs.
Proof.
  induction cs as [|[k x] cs IH]; simpl; intros Hn.
  - by apply elem_of_nil in Hn.
  - destruct (decide (k = n)); [done|].
    apply IH. apply elem_of_cons in Hn as [?|?]; [congruence|done].
Qed.

Lemma get_app_r n cs cs' : n ∉ cs.*1 → get n (cs ++ cs') = get n cs'.
Proof.
  induction cs as [|[k x] cs IH]; simpl; intros Hn; [done|].
  apply not_elem_of_cons in Hn as [Hk Hn].
  rewrite decide_False by done. by apply IH.
Qed.

Lemma labelled_fresh n cs : n ∉ cs.*1 → labelled n cs = [].
Proof.
  intros Hn. unfold labelled. induction cs as [|[k x] cs IH]; [done|].
  simpl in Hn. apply not_elem_of_cons in Hn as [Hk Hn].
  rewrite filter_cons_False by (simpl; congruence). by apply IH.
Qed.

Lemma labelled_app n cs cs' : labelled n (cs ++ cs') = labelled n cs ++ labelled n cs'.
Proof. apply filter_app. Qed.

Lemma get_app_fresh n cs cs' : n ∉ cs'.*1 → get n (cs ++ cs') = get n cs.
Proof.
  intros Hn. induction cs as [|[k x] cs IH]; simpl.
  - induction cs' as [|[k x] cs' IH]; [done|]. csimpl in *.
    apply not_elem_of_cons in Hn as [Hk Hn]. rewrite decide_False by done. auto.
  - by destruct (decide (k = n)).
Qed.

Lemma zip_labels_fresh n (names : list string) (l : list cell) :
  n ∉ names → n ∉ (zip names l).*1.
Proof.
  intros Hn ((k & x) & -> & Hin)%list_elem_of_fmap.
  apply elem_of_zip_l in Hin. done.
Qed.

Lemma filter_label_setitem n m (cols : list string) :
  n ≠ m →
  filter (λ c, c = n) (if decide (m ∈ cols) then cols else cols ++ [m])
  = filter (λ c, c = n) cols.
Proof.
  intros Hne. case_decide; [done|].
  by rewrite filter_app, filter_cons_False, filter_nil, app_nil_r.
Qed.

Lemma filter_label_drop n m (cols : list string) :
  n ≠ m → filter (λ c, c = n) (filter (λ c, c ≠ m) cols) = filter (λ c, c = n) cols.
Proof.
  intros Hne. rewrite list_filter_filter. apply list_filter_iff.
  intros c. split; [by intros [? _]|]. intros ->. done.
Qed.

Lemma NoDup_ix_filter (P : row → Prop) `{!∀ r, Decision (P r)} (rs : list row) :
  NoDup (ix <$> rs) → NoDup (ix <$> filter P rs).
Proof.
  intros Hnd. apply (sublist_NoDup (ix <$> filter P rs) (ix <$> rs)); [done|].
  apply fmap_sublist, sublist_filter.
Qed.

(** ** Rows and series *)

Lemma filter_fmap_comm {A B} (f : A → B) (P : B → Prop) `{!∀ x, Decision (P x)} (l : list A) :
  filter P (f <$> l) = f <$> filter (λ a, P (f a)) l.
Proof.
  induction l as [|a l IH]; [done|]. csimpl.
  rewrite !filter_cons. destruct (decide (P (f a))); csimpl; by rewrite IH.
Qed.

Lemma filter_all {A} (P : A → Prop) `{!∀ x, Decision (P x)} (l : list A) :
  Forall P l → filter P l = l.
Proof.
  induction 1 as [|a l Ha Hl IH]; [done|].
  by rewrite filter_cons_True, IH.
Qed.

Lemma filter_ext_in {A} (P Q : A → Prop)
    `{!∀ x, Decision (P x), !∀ x, Decision (Q x)} (l : list A) :
  (∀ x, x ∈ l → P x ↔ Q x) → filter P l = filter Q l.
Proof.
  induction l as [|a l IH]; intros HPQ; [done|].
  rewrite !filter_cons.
  destruct (decide (P a)) as [Ha|Ha], (decide (Q a)) as [Ha'|Ha'].
  - f_equal. apply IH. intros x Hx. apply HPQ. by right.
  - destruct Ha'. apply HPQ; [left|done].
  - destruct Ha. apply HPQ; [left|done].
  - apply IH. intros x Hx. apply HPQ. by right.
Qed.

(** A series cut from a table with distinct index labels answers, at the
    label of a row, with the value cut from that row. *)
Lemma loc_rows (f : row → cell) (rs : list row) (r : row) :
  NoDup (ix <$> rs) → r ∈ rs →
  loc ((λ r, (ix r, f r)) <$> rs) (ix r) = Some (f r).
Proof.
  induction rs as [|a rs IH]; csimpl; intros Hnd Hr.
  - by apply elem_of_nil in Hr.
  - apply NoDup_cons in Hnd as [Ha Hnd].
    apply elem_of_cons in Hr as [->|Hr].
    + by rewrite decide_True.
    + rewrite decide_False; [by apply IH|].
      intros Heq. apply Ha. rewrite Heq. by apply list_elem_of_fmap_2.
Qed.

Lemma ix_inj (rs : list row) (r r' : row) :
  NoDup (ix <$> rs) → r ∈ rs → r' ∈ rs → ix r = ix r' → r = r'.
Proof.
  induction rs as [|a rs IH]; csimpl; intros Hnd Hr Hr' Heq.
  - by apply elem_of_nil in Hr.
  - apply NoDup_cons in Hnd as [Ha Hnd].
    apply elem_of_cons in Hr as [->|Hr], Hr' as [->|Hr']; [done| | |by apply IH].
    + destruct Ha. rewrite Heq. by apply list_elem_of_fmap_2.
    + destruct Ha. rewrite <- Heq. by apply list_elem_of_fmap_2.
Qed.

Lemma setitem_rows name (f : row → cell) (df : DataFrame) :
  NoDup (ix <$> rows df) →
  setitem name ((λ r, (ix r, f r)) <$> rows df) df
  = Frame (if decide (name ∈ columns df) then columns df else columns df ++ [name])
          ((λ r, Row (ix r) (assign name (f r) (cells r))) <$> rows df).
Proof.
  intros Hnd. unfold setitem. f_equal.
  apply list_fmap_ext. intros i r Hr.
  rewrite loc_rows; [done..|]. by eapply list_elem_of_lookup_2.
Qed.

Lemma forallb_bools (skipna : bool) (values : list cell) :
  Forall (λ c, is_bool c = true) values →
  forallb (λ c, is_bool c || (skipna && isna c)) values = true.
Proof. induction 1 as [|c l Hc Hl IH]; [done|]. simpl. by rewrite Hc, IH. Qed.

Lemma is_bool_array_bools (values : list cell) :
  values ≠ [] → Forall (λ c, is_bool c = true) values → is_bool_array false values = true.
Proof.
  intros Hne Hall. destruct values as [|c values]; [done|].
  unfold is_bool_array. by apply forallb_bools.
Qed.

(** A column of booleans, one for each row and at least one, is a mask. *)
Lemma getitem_mask_rows (f : row → cell) (df : DataFrame) :
  NoDup (ix <$> rows df) → rows df ≠ [] →
  Forall (λ r, is_bool (f r) = true) (rows df) →
  getitem_mask ((λ r, (ix r, f r)) <$> rows df) df
  = Ok (Frame (columns df) (filter (λ r, truthy (f r) = true) (rows df))).
Proof.
  intros Hnd Hne Hbool. unfold getitem_mask, tolist.
  rewrite is_bool_array_bools; cycle 1.
  { intros Hnil. apply Hne. by destruct (rows df). }
  { rewrite <- list_fmap_compose. by rewrite Forall_fmap. }
  do 2 f_equal. apply filter_ext_in. intros r Hr. by rewrite loc_rows.
Qed.

(** A column without rows is no mask: it selects no column. *)
Lemma getitem_mask_empty (df : DataFrame) :
  rows df = [] → getitem_mask [] df = Ok (Frame [] []).
Proof. intros Hrows. unfold getitem_mask, getitem_list. simpl. by rewrite Hrows. Qed.

Lemma getitem_in name df :
  name ∈ columns df →
  getitem name df = Ok ((λ r, (ix r, get name (cells r))) <$> rows df).
Proof. intros Hin. unfold getitem. by rewrite decide_True. Qed.

Lemma getitem_not_in name df :
  name ∉ columns df → getitem name df = Raise (KeyError name).
Proof. intros Hin. unfold getitem. by rewrite decide_False. Qed.

Lemma filter_none {A} (P : A → Prop) `{!∀ x, Decision (P x)} (l : list A) :
  Forall (λ x, ¬ P x) l → filter P l = [].
Proof.
  induction 1 as [|a l Ha Hl IH]; [done|]. by rewrite filter_cons_False.
Qed.

Lemma filter_label_fresh n (cols : list string) :
  n ∉ cols → filter (λ c, c = n) cols = [].
Proof.
  intros Hn. apply filter_none, Forall_forall. by intros c Hc ->.
Qed.

Lemma find_row_imap {A} (g : A → list (string * cell)) (l : list A) i x :
  l !! i = Some x → find_row i (imap (λ i x, Row i (g x)) l) = Some (Row i (g x)).
Proof.
  intros Hi. unfold find_row.
  assert (list_find (λ r, ix r = i) (imap (λ i x, Row i (g x)) l)
          = Some (i, Row i (g x))) as ->; [|done].
  apply list_find_Some. split_and!.
  - by rewrite list_lookup_imap, Hi.
  - done.
  - intros j y Hj Hlt. apply list_lookup_imap_Some in Hj as (z & _ & ->). simpl. lia.
Qed.

(** Two tables over the same index [0..n-1] are joined row by row. *)
Lemma concat_aligned {A} ca cb (f g : A → list (string * cell)) (l : list A) :
  pd.concat (Frame ca (imap (λ i x, Row i (f x)) l))
            (Frame cb (imap (λ i x, Row i (g x)) l))
  = Frame (ca ++ cb) (imap (λ i x, Row i (f x ++ g x)) l).
Proof.
  unfold pd.concat. cbn [columns rows]. f_equal.
  rewrite filter_none, fmap_nil, app_nil_r.
  - rewrite fmap_imap. apply imap_ext. intros i x Hi. unfold compose. cbn [ix cells].
    by rewrite (find_row_imap g l i x).
  - apply Forall_forall. intros r (i & x & -> & Hi)%elem_of_lookup_imap_1.
    cbn [ix]. by rewrite (find_row_imap f l i x).
Qed.

Lemma records_rows names (d : row → list cell) (rs : list row) :
  Forall (λ r, get "features" (cells r) = PyList (d r) ∧ length (d r) = length names) rs →
  records names ((λ r, get "features" (cells r)) <$> rs)
  = Ok ((λ r, zip names (d r)) <$> rs).
Proof.
  induction 1 as [|r rs [Hr Hlen] Hrs IH]; [done|].
  csimpl. rewrite Hr. simpl. rewrite decide_True by done. simpl.
  by rewrite IH.
Qed.

(** ** The run monad *)

Section Proofs.
Context `{RDKit, Sklearn, NumpyRandom}.

Lemma bind_Ok {A B} (m : M A) (f : A → M B) σ a σ' :
  m σ = (Ok a, σ') → (m ≫= f) σ = f a σ'.
Proof. unfold mbind, M_bind. by intros ->. Qed.

Lemma bind_Raise {A B} (m : M A) (f : A → M B) σ e σ' :
  m σ = (Raise e, σ') → (m ≫= f) σ = (Raise e, σ').
Proof. unfold mbind, M_bind. by intros ->. Qed.

Lemma bind_Ok_inv {A B} (m : M A) (f : A → M B) σ b σ' :
  (m ≫= f) σ = (Ok b, σ') → ∃ a σ1, m σ = (Ok a, σ1) ∧ f a σ1 = (Ok b, σ').
Proof.
  unfold mbind, M_bind. destruct (m σ) as [[a|e] σ1]; [|done]. eauto.
Qed.

Lemma bind_assoc {A B C} (m : M A) (f : A → M B) (g : B → M C) σ :
  ((m ≫= f) ≫= g) σ = (m ≫= λ a, f a ≫= g) σ.
Proof. unfold mbind, M_bind. by destruct (m σ) as [[a|e] σ1]. Qed.

Lemma logged_nil σ : logged [] σ = σ.
Proof. destruct σ. unfold logged. simpl. by rewrite app_nil_r. Qed.

Lemma logged_logged evs evs' σ :
  logged evs' (logged evs σ) = logged (evs ++ evs') σ.
Proof. unfold logged. simpl. by rewrite app_assoc. Qed.

Lemma log_logged evs σ : log (logged evs σ) = log σ ++ evs.
Proof. done. Qed.

Lemma calls_cons x xs : calls (x :: xs) = calls [x] ++ calls xs.
Proof. unfold calls. simpl. by destruct x. Qed.

(** [apply] over a column of strings. *)
Lemma apply_str (f : cell → M cell) (pure : cell → cell) (s : Series) σ :
  (∀ x σ, is_str x = true → f x σ = (Ok (pure x), logged (calls [x]) σ)) →
  Forall (λ ic, is_str ic.2 = true) s →
  apply f s σ = (Ok ((λ ic, (ic.1, pure ic.2)) <$> s), logged (calls s.*2) σ).
Proof.
  intros Hf Hs. revert σ. induction Hs as [|[i x] s Hx Hs IH]; intros σ.
  - simpl. by rewrite logged_nil.
  - unfold apply in *. simpl.
    erewrite bind_Ok; [|erewrite bind_Ok; [|by apply Hf]; reflexivity].
    erewrite bind_Ok; [|apply IH].
    rewrite logged_logged, <- calls_cons. reflexivity.
Qed.

(** [apply] stops at the first value that is not a string. *)
Lemma apply_Ok_inv (f : cell → M cell) (s s' : Series) σ σ' :
  (∀ x σ, is_str x = false → ∃ e, f x σ = (Raise e, σ)) →
  apply f s σ = (Ok s', σ') → Forall (λ ic, is_str ic.2 = true) s.
Proof.
  intros Hf. revert s' σ σ'.
  induction s as [|[i x] s IH]; intros s' σ σ' Hrun; [done|].
  unfold apply in *. cbn [mapM_] in Hrun.
  apply bind_Ok_inv in Hrun as (ic & σ1 & Hx & Hrun).
  apply bind_Ok_inv in Hx as (c & σ2 & Hx & _).
  apply bind_Ok_inv in Hrun as (cs & σ3 & Hs & _).
  constructor; [|by eapply IH].
  destruct (is_str x) eqn:Hstr; [done|].
  destruct (Hf x σ Hstr) as [e He]. simpl in Hx. by rewrite He in Hx.
Qed.

(** ** Lines 19-37 *)

Lemma MolFromSmiles_str s σ :
  Chem_MolFromSmiles (Str s) σ
  = (Ok (MolFromSmiles s), logged [MolFromSmiles_called s] σ).
Proof. done. Qed.

Lemma compute_descriptors_str x σ :
  is_str x = true →
  compute_descriptors x σ = (Ok (features_of x), logged (calls [x]) σ).
Proof.
  destruct x as [|s| | | |]; try done. intros _.
  unfold compute_descriptors.
  erewrite bind_Ok by apply MolFromSmiles_str.
  unfold features_of, molecule. by destruct (MolFromSmiles s).
Qed.

Lemma compute_descriptors_not_str x σ :
  is_str x = false → ∃ e, compute_descriptors x σ = (Raise e, σ).
Proof. destruct x; try done; intros _; eexists; reflexivity. Qed.

Lemma is_valid_str x σ :
  is_str x = true → is_valid x σ = (Ok (valid_of x), logged (calls [x]) σ).
Proof.
  by destruct x.
Qed.

Lemma is_valid_not_str x σ :
  is_str x = false → ∃ e, is_valid x σ = (Raise e, σ).
Proof. destruct x; try done; intros _; eexists; reflexivity. Qed.

Lemma isna_features_of x : isna (features_of x) = false ↔ (match molecule x with Some _ => true | None => false end) = true.
Proof. unfold features_of. by destruct (molecule x). Qed.

Lemma smiles_with_features r : get "smiles" (with_features r) = smiles r.
Proof. unfold with_features. by rewrite get_assign_ne. Qed.

(** Line 31-32 on a table whose identifiers are all strings. *)
Lemma add_features_ok df σ :
  "smiles" ∈ columns df →
  NoDup (ix <$> rows df) →
  Forall (λ r, is_str (smiles r) = true) (rows df) →
  add_features df σ
  = (Ok (Frame (if decide ("features" ∈ columns df) then columns df
                else columns df ++ ["features"])
               ((λ r, Row (ix r) (with_features r))
                <$> filter (λ r, parses r = true) (rows df))),
     logged (calls (smiles <$> rows df)) σ).
Proof.
  intros Hcol Hnd Hstr. unfold add_features, getitem.
  rewrite decide_True by done.
  erewrite bind_Ok by reflexivity.
  erewrite bind_Ok; cycle 1.
  { apply apply_str; [apply compute_descriptors_str|].
    by rewrite Forall_fmap. }
  rewrite <- !list_fmap_compose. unfold compose. cbn [fst snd].
  rewrite (setitem_rows "features" (λ r, features_of (get "smiles" (cells r)))) by done.
  unfold dropna, lift. cbn [columns rows].
  rewrite decide_True; cycle 1.
  { case_decide; [done|]. apply elem_of_app. right. left. }
  do 2 f_equal. f_equal.
  rewrite filter_fmap_comm. f_equal.
  apply list_filter_iff. intros r. cbn [cells].
  rewrite get_assign_eq. apply isna_features_of.
Qed.

Lemma parses_is_str r : parses r = true → is_str (smiles r) = true.
Proof. unfold parses, molecule. by destruct (smiles r). Qed.

Lemma truthy_valid_of r : truthy (valid_of (smiles r)) = true ↔ parses r = true.
Proof. unfold parses, valid_of. by destruct (molecule (smiles r)). Qed.

(** Lines 35-37 on a table whose identifiers are all strings. *)
Lemma filter_valid_run df σ :
  "smiles" ∈ columns df →
  NoDup (ix <$> rows df) →
  Forall (λ r, is_str (smiles r) = true) (rows df) →
  rows df ≠ [] →
  filter_valid df σ
  = (Ok (Frame (filter (λ c, c ≠ "valid_smiles")
                       (if decide ("valid_smiles" ∈ columns df) then columns df
                        else columns df ++ ["valid_smiles"]))
               ((λ r, Row (ix r) (revalidated r))
                <$> filter (λ r, parses r = true) (rows df))),
     logged (calls (smiles <$> rows df)) σ).
Proof.
  intros Hcol Hnd Hstr Hne. unfold filter_valid.
  rewrite (getitem_in "smiles") by done.
  erewrite bind_Ok by reflexivity.
  erewrite bind_Ok; cycle 1.
  { apply apply_str; [apply is_valid_str|]. by rewrite Forall_fmap. }
  rewrite <- !list_fmap_compose. unfold compose. cbn [fst snd].
  rewrite (setitem_rows "valid_smiles" (λ r, valid_of (get "smiles" (cells r)))) by done.
  set (cols' := if decide (_ ∈ _) then _ else _).
  assert ("valid_smiles" ∈ cols') as Hvs.
  { unfold cols'. case_decide; [done|]. apply elem_of_app. right. left. }
  rewrite (getitem_in "valid_smiles") by done.
  erewrite bind_Ok by reflexivity.
  set (df' := Frame cols' _).
  rewrite (getitem_mask_rows (λ r, get "valid_smiles" (cells r)) df'); cycle 1.
  { unfold df'. cbn [rows]. by rewrite <- list_fmap_compose. }
  { unfold df'. cbn [rows]. intros Hnil. apply Hne. by destruct (rows df). }
  { unfold df'. cbn [rows]. rewrite Forall_fmap. apply Forall_forall. intros r _.
    unfold compose. cbn [cells]. by rewrite get_assign_eq. }
  erewrite bind_Ok by reflexivity.
  unfold df', drop_columns, lift. cbn [columns rows]. rewrite decide_True by done.
  do 2 f_equal. f_equal.
  rewrite filter_fmap_comm, <- list_fmap_compose. cbn [cells]. f_equal.
  apply list_filter_iff. intros r.
  rewrite get_assign_eq. apply truthy_valid_of.
Qed.

(** On a table without rows, line 37 finds no column to drop. *)
Lemma filter_valid_empty df σ :
  "smiles" ∈ columns df → rows df = [] →
  filter_valid df σ = (Raise (KeyError "valid_smiles"), σ).
Proof.
  intros Hcol Hrows. unfold filter_valid.
  rewrite (getitem_in "smiles") by done. rewrite Hrows.
  erewrite bind_Ok by reflexivity.
  erewrite bind_Ok by reflexivity.
  unfold getitem, setitem. cbn [columns rows fmap list_fmap].
  rewrite Hrows. cbn [fmap list_fmap].
  destruct (decide ("valid_smiles" ∈ columns df)).
  - rewrite decide_True by done.
    erewrite bind_Ok by reflexivity.
    erewrite bind_Ok by (unfold lift; by rewrite getitem_mask_empty).
    reflexivity.
  - rewrite decide_True by (apply elem_of_app; right; left).
    erewrite bind_Ok by reflexivity.
    erewrite bind_Ok by (unfold lift; by rewrite getitem_mask_empty).
    reflexivity.
Qed.

(** On a table whose identifiers all parse, they keep every row. *)
Lemma filter_valid_ok df σ :
  "smiles" ∈ columns df →
  NoDup (ix <$> rows df) →
  Forall (λ r, parses r = true) (rows df) →
  rows df ≠ [] →
  filter_valid df σ
  = (Ok (Frame (filter (λ c, c ≠ "valid_smiles")
                       (if decide ("valid_smiles" ∈ columns df) then columns df
                        else columns df ++ ["valid_smiles"]))
               ((λ r, Row (ix r) (revalidated r)) <$> rows df)),
     logged (calls (smiles <$> rows df)) σ).
Proof.
  intros Hcol Hnd Hparse Hne. rewrite filter_valid_run; [|done|done| |done].
  - by rewrite (filter_all (λ r, parses r = true)).
  - eapply Forall_impl; [done|]. apply parses_is_str.
Qed.

(** Lines 40-42 on a table whose feature cells are lists of five. *)
Lemma assemble_ok (d : row → list cell) df σ :
  "features" ∈ columns df →
  Forall (λ r, get "features" (cells r) = PyList (d r)
               ∧ length (d r) = length descriptor_names) (rows df) →
  assemble df σ
  = (Ok (Frame (columns df ++ descriptor_names)
               (imap (λ i r, Row i (cells r ++ zip descriptor_names (d r))) (rows df))),
     σ).
Proof.
  intros Hcol Hd. unfold assemble, getitem. rewrite decide_True by done.
  erewrite bind_Ok by reflexivity.
  unfold tolist, pd.DataFrame. rewrite <- list_fmap_compose. unfold compose. cbn [snd].
  rewrite (records_rows _ d) by done.
  erewrite bind_Ok by reflexivity.
  unfold reset_index. rewrite imap_fmap. unfold compose.
  by rewrite (concat_aligned (columns df) descriptor_names cells
                (λ r, zip descriptor_names (d r))).
Qed.

(** Lines 45-46 on the assembled table. *)
Lemma getitem_list_descriptors cols rs :
  getitem_list descriptor_names (Frame (cols ++ descriptor_names) rs)
  = Ok (Frame (descriptor_names ≫= λ n, filter (λ c, c = n) (cols ++ descriptor_names))
              ((λ r, Row (ix r) (descriptor_names ≫= λ n, labelled n (cells r))) <$> rs)).
Proof.
  unfold getitem_list. cbn [columns rows].
  rewrite filter_none; [done|].
  apply Forall_forall. intros n Hn Hnot. apply Hnot, elem_of_app. by right.
Qed.

Lemma p_np_assembled cols : "p_np" ∈ cols ++ descriptor_names ↔ "p_np" ∈ cols.
Proof.
  rewrite elem_of_app. split; [|by left]. intros [?|Hin]; [done|].
  exfalso. revert Hin. apply (bool_decide_unpack _). by vm_compute.
Qed.

Lemma define_X_y_ok cols rs σ :
  "p_np" ∈ cols →
  define_X_y (Frame (cols ++ descriptor_names) rs) σ
  = (Ok (Frame (descriptor_names ≫= λ n, filter (λ c, c = n) (cols ++ descriptor_names))
               ((λ r, Row (ix r) (descriptor_names ≫= λ n, labelled n (cells r))) <$> rs),
         (λ r, (ix r, get "p_np" (cells r))) <$> rs),
     σ).
Proof.
  intros Hy. unfold define_X_y. rewrite getitem_list_descriptors.
  erewrite bind_Ok by reflexivity.
  rewrite getitem_in; [done|]. cbn [columns]. by rewrite p_np_assembled.
Qed.

Lemma define_X_y_no_label cols rs σ :
  "p_np" ∉ cols →
  define_X_y (Frame (cols ++ descriptor_names) rs) σ = (Raise (KeyError "p_np"), σ).
Proof.
  intros Hy. unfold define_X_y. rewrite getitem_list_descriptors.
  erewrite bind_Ok by reflexivity.
  rewrite getitem_not_in; [done|]. cbn [columns]. by rewrite p_np_assembled.
Qed.

(** ** Lines 35-46 on the table line 32 leaves *)

Lemma names_bind_ext {A} (f g : string → list A) :
  (∀ n, n ≠ "features" → n ≠ "valid_smiles" → f n = g n) →
  descriptor_names ≫= f = descriptor_names ≫= g.
Proof. intros Hfg. unfold descriptor_names. csimpl. by rewrite !Hfg. Qed.

Lemma p_np_fresh (l : list cell) : "p_np" ∉ (zip descriptor_names l).*1.
Proof. apply zip_labels_fresh, (bool_decide_unpack _). by vm_compute. Qed.

Lemma featured_lists df :
  featured df →
  Forall (λ r, get "features" (cells r)
               = PyList (from_option descriptors [] (molecule (smiles r)))
               ∧ length (from_option descriptors [] (molecule (smiles r)))
                 = length descriptor_names) (rows df).
Proof.
  intros (_ & _ & _ & Hrows). eapply Forall_impl; [done|].
  intros r [Hp ->]. unfold parses, features_of in *.
  by destruct (molecule (smiles r)).
Qed.

Lemma finish_without df σ :
  featured df →
  (assemble df ≫= define_X_y) σ
  = (if decide ("p_np" ∈ columns df)
     then Ok (X_from (columns df) (rows df), y_from (rows df))
     else Raise (KeyError "p_np"), σ).
Proof.
  intros Hdf. pose proof Hdf as (Hs & Hf & Hnd & Hrows).
  erewrite bind_Ok by (by apply assemble_ok, featured_lists).
  case_decide.
  - rewrite define_X_y_ok by done. do 2 f_equal.
    unfold X_from, y_from. rewrite !fmap_imap. f_equal.
    apply imap_ext. intros i r Hr. unfold compose. cbn [ix cells].
    f_equal. apply get_app_fresh, p_np_fresh.
  - by rewrite define_X_y_no_label.
Qed.

Lemma smiles_revalidated r : get "smiles" (revalidated r) = smiles r.
Proof. unfold revalidated. by rewrite get_drop_ne, get_assign_ne. Qed.

Lemma finish_with df σ :
  featured df → rows df ≠ [] →
  (filter_valid df ≫= λ df, assemble df ≫= define_X_y) σ
  = (if decide ("p_np" ∈ columns df)
     then Ok (X_from (columns df) (rows df), y_from (rows df))
     else Raise (KeyError "p_np"),
     logged (calls (smiles <$> rows df)) σ).
Proof.
  intros Hdf Hne. pose proof (featured_lists df Hdf) as Hlists.
  destruct Hdf as (Hs & Hf & Hnd & Hrows).
  erewrite bind_Ok; cycle 1.
  { apply filter_valid_ok; [done|done| |done].
    eapply Forall_impl; [exact Hrows|]. by intros r [? _]. }
  set (cols' := filter _ _).
  assert (∀ n, n ≠ "valid_smiles" → n ∈ cols' ↔ n ∈ columns df) as Hcols.
  { intros n Hn. unfold cols'. rewrite list_elem_of_filter. case_decide.
    - tauto.
    - rewrite elem_of_app, list_elem_of_singleton. tauto. }
  erewrite bind_Ok; cycle 1.
  { apply (assemble_ok (λ r, from_option descriptors [] (molecule (smiles r)))).
    - by apply Hcols.
    - cbn [rows]. rewrite Forall_fmap. eapply Forall_impl; [exact Hlists|].
      intros r [Hfeat Hlen]. unfold compose, smiles. cbn [cells].
      rewrite smiles_revalidated. split; [|done].
      unfold revalidated. by rewrite get_drop_ne, get_assign_ne. }
  cbn [columns rows].
  destruct (decide ("p_np" ∈ columns df)) as [Hy|Hy].
  - rewrite define_X_y_ok by (by apply Hcols). do 2 f_equal.
    unfold X_from, y_from. rewrite !fmap_imap, !imap_fmap. f_equal; [f_equal|].
    + apply names_bind_ext. intros n _ Hn. rewrite !filter_app. f_equal.
      unfold cols'. by rewrite filter_label_drop, filter_label_setitem.
    + apply imap_ext. intros i r Hr. unfold compose. cbn [ix cells]. f_equal.
      apply names_bind_ext. intros n _ Hn. rewrite !labelled_app.
      unfold smiles. cbn [cells]. rewrite smiles_revalidated. f_equal.
      unfold revalidated. by rewrite labelled_drop_ne, labelled_assign_ne.
    + apply imap_ext. intros i r Hr. unfold compose. cbn [ix cells]. f_equal.
      rewrite get_app_fresh by apply p_np_fresh.
      unfold revalidated. by rewrite get_drop_ne, get_assign_ne.
  - rewrite define_X_y_no_label; [done|]. by rewrite Hcols.
Qed.

(** ** Lines 15-32 *)

Lemma parses_not_na r : parses r = true → isna (smiles r) = false.
Proof. unfold parses, molecule. by destruct (smiles r). Qed.

Lemma survivors_cleaned csv :
  filter (λ r, parses r = true) (cleaned csv) = survivors csv.
Proof. apply list_filter_filter_l. intros r. apply parses_not_na. Qed.

Lemma features_stage_ok csv σ :
  "smiles" ∈ columns csv → NoDup (ix <$> rows csv) → identifiers_are_strings csv →
  (load csv ≫= add_features) σ
  = (Ok (featured_table csv), logged (calls (smiles <$> cleaned csv)) σ).
Proof.
  intros Hs Hnd Hstr. unfold load, dropna. rewrite decide_True by done.
  erewrite bind_Ok by reflexivity.
  change (filter _ (rows csv)) with (cleaned csv).
  rewrite add_features_ok; [|done|by apply NoDup_ix_filter|done].
  cbn [columns rows]. by rewrite survivors_cleaned.
Qed.

Lemma features_stage_inv csv σ df σ' :
  (load csv ≫= add_features) σ = (Ok df, σ') →
  "smiles" ∈ columns csv ∧ identifiers_are_strings csv.
Proof.
  intros (df1 & σ1 & Hload & Hadd)%bind_Ok_inv.
  unfold load, dropna, lift in Hload.
  destruct (decide ("smiles" ∈ columns csv)) as [Hs|]; [|done].
  split; [done|]. injection Hload as <- <-.
  unfold add_features in Hadd. rewrite getitem_in in Hadd by done.
  apply bind_Ok_inv in Hadd as (s & σ2 & [= <- <-] & Hadd).
  apply bind_Ok_inv in Hadd as (s' & σ3 & Happly & _).
  apply apply_Ok_inv in Happly; [|apply compute_descriptors_not_str].
  by rewrite Forall_fmap in Happly.
Qed.

Lemma featured_table_featured csv :
  "smiles" ∈ columns csv → NoDup (ix <$> rows csv) → featured (featured_table csv).
Proof.
  intros Hs Hnd. unfold featured, featured_table. cbn [columns rows]. split_and!.
  - case_decide; [done|]. apply elem_of_app. by left.
  - case_decide; [done|]. apply elem_of_app. right. left.
  - rewrite <- list_fmap_compose. by apply NoDup_ix_filter.
  - rewrite Forall_fmap. apply Forall_forall.
    intros r [Hr _]%list_elem_of_filter. unfold compose, parses, smiles. cbn [cells].
    rewrite smiles_with_features. split; [done|].
    unfold with_features. by rewrite get_assign_eq.
Qed.

Lemma X_y_featured_table csv :
  X_from (columns (featured_table csv)) (rows (featured_table csv)) = X_of csv
  ∧ y_from (rows (featured_table csv)) = y_of csv.
Proof.
  unfold X_of, y_of, X_from, y_from, featured_table. cbn [columns rows].
  rewrite !imap_fmap. split; [f_equal|].
  - apply names_bind_ext. intros n Hn _. rewrite !filter_app. f_equal.
    by rewrite filter_label_setitem.
  - apply imap_ext. intros i r Hr. unfold compose. f_equal. cbn [cells].
    apply names_bind_ext. intros n Hn _. rewrite !labelled_app.
    unfold feature_columns, smiles. cbn [cells]. rewrite smiles_with_features.
    f_equal. unfold with_features. by rewrite labelled_assign_ne.
  - apply imap_ext. intros i r Hr. unfold compose. f_equal. cbn [cells].
    unfold with_features. by rewrite get_assign_ne.
Qed.

Lemma p_np_featured_table csv :
  "p_np" ∈ columns (featured_table csv) ↔ "p_np" ∈ columns csv.
Proof.
  unfold featured_table. cbn [columns]. case_decide; [done|].
  rewrite elem_of_app, list_elem_of_singleton. split; [|by left].
  by intros [?|?].
Qed.

(** ** Lines 15-46 *)

Lemma rows_featured_table csv : rows (featured_table csv) = [] ↔ survivors csv = [].
Proof.
  unfold featured_table. cbn [rows]. split; [apply fmap_nil_inv|by intros ->].
Qed.

Lemma prepare_run csv σ :
  "smiles" ∈ columns csv → NoDup (ix <$> rows csv) → identifiers_are_strings csv →
  prepare csv σ
  = (prepared csv,
     logged (calls (smiles <$> cleaned csv) ++ calls (smiles <$> survivors csv)) σ).
Proof.
  intros Hs Hnd Hstr.
  pose proof (features_stage_ok csv σ Hs Hnd Hstr) as Hstage.
  apply bind_Ok_inv in Hstage as Hinv. destruct Hinv as (df1 & σ1 & Hload & Hadd).
  unfold prepare. erewrite bind_Ok by exact Hload.
  erewrite bind_Ok by exact Hadd.
  pose proof (featured_table_featured csv Hs Hnd) as Hfeatured.
  unfold prepared. destruct (decide (survivors csv = [])) as [Hnone|Hsome].
  - erewrite bind_Raise; cycle 1.
    { apply filter_valid_empty; [by destruct Hfeatured|by apply rows_featured_table]. }
    rewrite Hnone. by rewrite app_nil_r.
  - etrans; [apply finish_with; [done|by rewrite rows_featured_table]|].
    destruct (X_y_featured_table csv) as [-> ->].
    rewrite logged_logged. unfold prepared_without_second_filter. f_equal.
    + apply decide_ext, p_np_featured_table.
    + do 3 f_equal. unfold featured_table. cbn [rows].
      rewrite <- list_fmap_compose. apply list_fmap_ext. intros i r _.
      unfold compose, smiles. cbn [cells]. apply smiles_with_features.
Qed.

Lemma prepare_without_second_filter_run csv σ :
  "smiles" ∈ columns csv → NoDup (ix <$> rows csv) → identifiers_are_strings csv →
  prepare_without_second_filter csv σ
  = (prepared_without_second_filter csv, logged (calls (smiles <$> cleaned csv)) σ).
Proof.
  intros Hs Hnd Hstr.
  pose proof (features_stage_ok csv σ Hs Hnd Hstr) as Hstage.
  apply bind_Ok_inv in Hstage as Hinv. destruct Hinv as (df1 & σ1 & Hload & Hadd).
  unfold prepare_without_second_filter. erewrite bind_Ok by exact Hload.
  erewrite bind_Ok by exact Hadd.
  etrans; [apply finish_without; by apply featured_table_featured|].
  destruct (X_y_featured_table csv) as [-> ->].
  unfold prepared_without_second_filter. f_equal. apply decide_ext, p_np_featured_table.
Qed.

Lemma prepare_extraction csv σ :
  prepare csv σ = (extraction csv ≫= λ df, assemble df ≫= define_X_y) σ.
Proof.
  unfold prepare, extraction, mbind, M_bind.
  destruct (load csv σ) as [[df1|e] σ1]; [|done].
  destruct (add_features df1 σ1) as [[df2|e] σ2]; [|done].
  by destruct (filter_valid df2 σ2) as [[df3|e] σ3].
Qed.

Lemma extraction_run csv σ :
  "smiles" ∈ columns csv → NoDup (ix <$> rows csv) → identifiers_are_strings csv →
  extraction csv σ
  = (extracted csv,
     logged (calls (smiles <$> cleaned csv) ++ calls (smiles <$> survivors csv)) σ).
Proof.
  intros Hs Hnd Hstr.
  pose proof (features_stage_ok csv σ Hs Hnd Hstr) as Hstage.
  apply bind_Ok_inv in Hstage as Hinv. destruct Hinv as (df1 & σ1 & Hload & Hadd).
  unfold extraction. erewrite bind_Ok by exact Hload.
  erewrite bind_Ok by exact Hadd.
  destruct (featured_table_featured csv Hs Hnd) as (Hs' & _ & Hnd' & Hrows).
  unfold extracted. destruct (decide (survivors csv = [])) as [Hnone|Hsome].
  - rewrite filter_valid_empty by (by try apply rows_featured_table).
    rewrite Hnone. by rewrite app_nil_r.
  - rewrite filter_valid_ok; [|done|done| |by rewrite rows_featured_table]; cycle 1.
    { eapply Forall_impl; [done|]. by intros r [? _]. }
    rewrite logged_logged. do 4 f_equal. unfold featured_table. cbn [rows].
    rewrite <- list_fmap_compose. apply list_fmap_ext. intros i r _.
    unfold compose, smiles. cbn [cells]. apply smiles_with_features.
Qed.

(** With a record that parses lines 15-37 go through. *)
Lemma extraction_ok csv σ :
  "smiles" ∈ columns csv → NoDup (ix <$> rows csv) → identifiers_are_strings csv →
  survivors csv ≠ [] →
  extraction csv σ
  = (Ok (Frame (filter (λ c, c ≠ "valid_smiles")
                       (if decide ("valid_smiles" ∈ columns (featured_table csv))
                        then columns (featured_table csv)
                        else columns (featured_table csv) ++ ["valid_smiles"]))
               ((λ r, Row (ix r) (revalidated r)) <$> rows (featured_table csv))),
     logged (calls (smiles <$> cleaned csv) ++ calls (smiles <$> survivors csv)) σ).
Proof.
  intros Hs Hnd Hstr Hsome. rewrite extraction_run by done.
  unfold extracted. by rewrite decide_False.
Qed.

Lemma elem_of_survivors csv r :
  r ∈ survivors csv
  ↔ r ∈ rows csv ∧ ∃ s mol, smiles r = Str s ∧ MolFromSmiles s = Some mol.
Proof.
  unfold survivors. rewrite list_elem_of_filter. unfold parses, molecule.
  split.
  - intros [Hp Hr]. split; [done|].
    destruct (smiles r) as [|s| | | |]; try done.
    destruct (MolFromSmiles s) as [mol|] eqn:Hmol; [|done]. eauto.
  - intros [Hr (s & mol & -> & ->)]. done.
Qed.

(** ** The claims on lines 15-46 *)

(** C1: on a table that has both columns and string identifiers, the
    records that reach the data set are exactly those whose identifier
    is present and parses.  Where there is one, lines 15-46 return X
    and y built from them, row for row and in order, so that a record
    whose identifier fails to parse is in neither, and the table handed
    to the assembly holds a list of five in every feature cell, never
    None.  Where there is none, line 37 raises and there is no X and no
    y at all. *)
Theorem unparsable_records_absent csv σ :
  well_formed csv → "smiles" ∈ columns csv → "p_np" ∈ columns csv →
  identifiers_are_strings csv →
  (∀ r, r ∈ survivors csv
        ↔ r ∈ rows csv ∧ ∃ s mol, smiles r = Str s ∧ MolFromSmiles s = Some mol)
  ∧ (survivors csv ≠ [] →
     ∃ df σ',
       extraction csv σ = (Ok df, σ')
       ∧ Forall (λ r, ∃ l, get "features" (cells r) = PyList l ∧ length l = 5%nat) (rows df)
       ∧ (assemble df ≫= define_X_y) σ' = (Ok (X_of csv, y_of csv), σ')
       ∧ prepare csv σ = (Ok (X_of csv, y_of csv), σ')
       ∧ rows (X_of csv)
         = imap (λ i r, Row i (descriptor_names
                               ≫= λ n, labelled n (cells r ++ feature_columns r)))
                (survivors csv)
       ∧ y_of csv = imap (λ i r, (i, get "p_np" (cells r))) (survivors csv))
  ∧ (survivors csv = [] →
     ∃ σ', extraction csv σ = (Raise (KeyError "valid_smiles"), σ')
           ∧ prepare csv σ = (Raise (KeyError "valid_smiles"), σ')).
Proof.
  intros (_ & Hnd & _) Hs Hy Hstr.
  pose proof (extraction_run csv σ Hs Hnd Hstr) as Hext.
  pose proof (prepare_run csv σ Hs Hnd Hstr) as Hprep.
  unfold prepared, extracted, prepared_without_second_filter in *.
  split_and!.
  - apply elem_of_survivors.
  - intros Hsome. rewrite decide_False in Hext by done.
    rewrite decide_False in Hprep by done. rewrite decide_True in Hprep by done.
    eexists _, _. split; [exact Hext|]. split_and!.
    + cbn [rows]. rewrite Forall_fmap.
      pose proof (featured_lists _ (featured_table_featured csv Hs Hnd)) as Hlists.
      eapply Forall_impl; [exact Hlists|]. intros r [Hfeat Hlen]. unfold compose. cbn [cells].
      eexists. unfold revalidated. rewrite get_drop_ne, get_assign_ne by done. eauto.
    + rewrite prepare_extraction in Hprep. by erewrite bind_Ok in Hprep by exact Hext.
    + done.
    + done.
    + done.
  - intros Hnone. rewrite decide_True in Hext by done.
    rewrite decide_True in Hprep by done. eauto.
Qed.

Lemma not_survivor csv r s :
  NoDup (ix <$> rows csv) → r ∈ rows csv → smiles r = Str s → MolFromSmiles s = None →
  ix r ∉ ix <$> survivors csv.
Proof.
  intros Hnd Hr Hs Hnone (r' & Heq & Hr')%list_elem_of_fmap.
  apply elem_of_survivors in Hr' as Hparse. destruct Hparse as (Hin & s' & mol & Hs' & Hmol).
  assert (r = r') as <- by by eapply ix_inj.
  congruence.
Qed.

(** C8 (amended): an identifier string the parser rejects makes neither
    [compute_descriptors] nor the validity check raise: the first
    returns None, the second False.  On a table with string
    identifiers the first filter returns a table without the record, and
    so does the second, run on the cleaned table.  Lines 15-37 as a
    whole return a table without the record when some identifier of the
    table parses; when none does, line 37 raises a KeyError. *)
Theorem invalid_identifier_excluded (s : string) :
  MolFromSmiles s = None →
  (∀ σ, compute_descriptors (Str s) σ = (Ok PyNone, logged [MolFromSmiles_called s] σ))
  ∧ (∀ σ, is_valid (Str s) σ = (Ok (Bool false), logged [MolFromSmiles_called s] σ))
  ∧ ∀ csv σ,
      well_formed csv → "smiles" ∈ columns csv → identifiers_are_strings csv →
      (∃ df σ', (load csv ≫= add_features) σ = (Ok df, σ')
                ∧ ∀ r, r ∈ rows csv → smiles r = Str s → ix r ∉ ix <$> rows df)
      ∧ (cleaned csv ≠ [] →
         ∃ df σ', (load csv ≫= filter_valid) σ = (Ok df, σ')
                  ∧ ∀ r, r ∈ rows csv → smiles r = Str s → ix r ∉ ix <$> rows df)
      ∧ (survivors csv ≠ [] →
         ∃ df σ', extraction csv σ = (Ok df, σ')
                  ∧ ∀ r, r ∈ rows csv → smiles r = Str s → ix r ∉ ix <$> rows df)
      ∧ (survivors csv = [] →
         ∃ σ', extraction csv σ = (Raise (KeyError "valid_smiles"), σ')).
Proof.
  intros Hnone. split_and!.
  - intros σ. rewrite compute_descriptors_str by done.
    unfold features_of, molecule. by rewrite Hnone.
  - intros σ. rewrite is_valid_str by done.
    unfold valid_of, molecule. by rewrite Hnone.
  - intros csv σ (_ & Hnd & _) Hs Hstr. split_and!.
    + eexists _, _. split; [by apply features_stage_ok|].
      intros r Hr Hsr. unfold featured_table. cbn [rows].
      rewrite <- list_fmap_compose. by eapply not_survivor.
    + intros Hcleaned. eexists _, _. split.
      * unfold load, dropna. rewrite decide_True by done.
        erewrite bind_Ok by reflexivity.
        change (filter _ (rows csv)) with (cleaned csv).
        apply filter_valid_run; [done|by apply NoDup_ix_filter|done|done].
      * intros r Hr Hsr. cbn [rows columns].
        rewrite survivors_cleaned, <- list_fmap_compose. by eapply not_survivor.
    + intros Hsome. eexists _, _. split; [by apply extraction_ok|].
      intros r Hr Hsr. unfold featured_table. cbn [rows].
      rewrite <- !list_fmap_compose. by eapply not_survivor.
    + intros Hnone'. eexists. rewrite extraction_run by done.
      unfold extracted. by rewrite decide_True.
Qed.

Lemma prepare_features_stage csv σ :
  prepare csv σ
  = ((load csv ≫= add_features) ≫= λ df, filter_valid df ≫= λ df, assemble df ≫= define_X_y) σ.
Proof. unfold prepare. by rewrite bind_assoc. Qed.

Lemma prepare_without_features_stage csv σ :
  prepare_without_second_filter csv σ
  = ((load csv ≫= add_features) ≫= λ df, assemble df ≫= define_X_y) σ.
Proof. unfold prepare_without_second_filter. by rewrite bind_assoc. Qed.

(** C10 (amended): on a table of which some identifier parses, lines
    35-37 remove no row from the table line 32 leaves (the index labels
    before and after are the same list), and X and y come out the same,
    or the same exception is raised, when they are left out. *)
Theorem second_filter_redundant csv σ :
  well_formed csv → survivors csv ≠ [] →
  (prepare csv σ).1 = (prepare_without_second_filter csv σ).1
  ∧ ∀ df σ1, (load csv ≫= add_features) σ = (Ok df, σ1) →
      ∃ df' σ2, filter_valid df σ1 = (Ok df', σ2)
                ∧ ix <$> rows df' = ix <$> rows df
                ∧ length (rows df') = length (rows df).
Proof.
  intros (_ & Hnd & _) Hsome.
  destruct ((load csv ≫= add_features) σ) as [[df|e] σ1] eqn:Hstage.
  - apply features_stage_inv in Hstage as Hinv. destruct Hinv as [Hs Hstr].
    rewrite prepare_run, prepare_without_second_filter_run by done.
    unfold prepared. rewrite decide_False by done.
    split; [done|]. intros df0 σ0 [= <- <-].
    rewrite features_stage_ok in Hstage by done. injection Hstage as <- <-.
    destruct (featured_table_featured csv Hs Hnd) as (Hs' & _ & Hnd' & Hrows).
    eexists _, _. split.
    + apply filter_valid_ok; [done|done| |by rewrite rows_featured_table].
      eapply Forall_impl; [done|]. by intros r [? _].
    + cbn [rows]. by rewrite <- list_fmap_compose, length_fmap.
  - rewrite prepare_features_stage, prepare_without_features_stage.
    rewrite !(bind_Raise _ _ _ _ _ Hstage). split; [done|]. by intros df0 σ0.
Qed.

(** C2 (amended): [compute_descriptors] returns, for an identifier that
    parses, the list of molecular weight, lipophilicity, donor count,
    acceptor count and polar surface area, in this order; and when some
    identifier parses and no column of the input table carries one of
    the five descriptor names, X has exactly the five descriptor
    columns, in this order, and each of its rows holds these five
    values of one molecule. *)
Theorem feature_rows csv σ :
  well_formed csv → "smiles" ∈ columns csv → "p_np" ∈ columns csv →
  identifiers_are_strings csv →
  survivors csv ≠ [] →
  (∀ n, n ∈ descriptor_names → n ∉ columns csv) →
  (∀ s mol σ, MolFromSmiles s = Some mol →
     compute_descriptors (Str s) σ
     = (Ok (PyList [Float (MolWt mol); Float (MolLogP mol); Int (NumHDonors mol);
                    Int (NumHAcceptors mol); Float (TPSA mol)]),
        logged [MolFromSmiles_called s] σ))
  ∧ ∃ X y σ',
      prepare csv σ = (Ok (X, y), σ')
      ∧ columns X = ["MolWt"; "MolLogP"; "NumHDonors"; "NumHAcceptors"; "TPSA"]
      ∧ length (rows X) = length (survivors csv)
      ∧ ∀ i r, rows X !! i = Some r →
          ∃ r0 s mol,
            survivors csv !! i = Some r0 ∧ smiles r0 = Str s ∧ MolFromSmiles s = Some mol
            ∧ cells r = [("MolWt", Float (MolWt mol)); ("MolLogP", Float (MolLogP mol));
                         ("NumHDonors", Int (NumHDonors mol));
                         ("NumHAcceptors", Int (NumHAcceptors mol));
                         ("TPSA", Float (TPSA mol))].
Proof.
  intros (_ & Hnd & Hrect) Hs Hy Hstr Hsome Hfresh. split.
  - intros s mol σ0 Hmol. rewrite compute_descriptors_str by done.
    unfold features_of, molecule. by rewrite Hmol.
  - eexists _, _, _. split.
    { rewrite prepare_run by done. unfold prepared, prepared_without_second_filter.
      rewrite decide_False by done. by rewrite decide_True. }
    unfold X_of, X_from. cbn [columns rows]. split_and!.
    + unfold descriptor_names in *. csimpl. rewrite !filter_app.
      rewrite !(filter_label_fresh _ (columns csv))
        by (apply Hfresh, (bool_decide_unpack _); by vm_compute).
      reflexivity.
    + apply length_imap.
    + intros i r (r0 & Hr0 & ->)%list_lookup_imap_Some.
      assert (r0 ∈ survivors csv) as Hin by by eapply list_elem_of_lookup_2.
      apply elem_of_survivors in Hin as (Hin & s & mol & Hsm & Hmol).
      exists r0, s, mol. split_and!; [done..|]. cbn [cells].
      unfold feature_columns, molecule. rewrite Hsm, Hmol. simpl from_option.
      rewrite Forall_forall in Hrect. specialize (Hrect r0 Hin).
      unfold descriptor_names in *. csimpl. rewrite !labelled_app.
      rewrite !(labelled_fresh _ (cells r0))
        by (rewrite Hrect; apply Hfresh, (bool_decide_unpack _); by vm_compute).
      reflexivity.
Qed.

Lemma calls_parse_only xs : Forall (λ ev, ∃ s, ev = MolFromSmiles_called s) (calls xs).
Proof.
  induction xs as [|x xs IH]; [constructor|].
  rewrite calls_cons. apply Forall_app. split; [|done].
  destruct x; repeat constructor. eauto.
Qed.

(** C3 (amended): without the identifier column the run fails at line
    16 with a KeyError and nothing has been done.  With the identifier
    column (and string identifiers) but without the label column it
    fails with a KeyError later, when the parser has been called on
    every identifier: at line 46, for the label column, if some
    identifier parses (the parser has then been called once more on
    each that parses), and at line 37 if none does.  Nothing of the
    split, the training or the evaluation has been started. *)
Theorem missing_column csv σ :
  ("smiles" ∉ columns csv → script csv σ = (Raise (KeyError "smiles"), σ))
  ∧ ("smiles" ∈ columns csv → "p_np" ∉ columns csv →
     well_formed csv → identifiers_are_strings csv →
     ∃ key evs,
       script csv σ = (Raise (KeyError key), logged evs σ)
       ∧ evs = calls (smiles <$> cleaned csv) ++ calls (smiles <$> survivors csv)
       ∧ Forall (λ ev, ∃ s, ev = MolFromSmiles_called s) evs
       ∧ (survivors csv ≠ [] → key = "p_np")
       ∧ (survivors csv = [] → key = "valid_smiles"
                               ∧ evs = calls (smiles <$> cleaned csv))).
Proof.
  split.
  - intros Hs. unfold script, prepare, load, dropna.
    rewrite decide_False by done. reflexivity.
  - intros Hs Hy (_ & Hnd & _) Hstr.
    pose proof (prepare_run csv σ Hs Hnd Hstr) as Hprep.
    unfold prepared, prepared_without_second_filter in Hprep.
    destruct (decide (survivors csv = [])) as [Hnone|Hsome].
    + exists "valid_smiles". eexists. split_and!; [|reflexivity| | |].
      * unfold script. erewrite bind_Raise; [reflexivity|exact Hprep].
      * apply Forall_app. split; apply calls_parse_only.
      * done.
      * intros _. split; [done|]. rewrite Hnone. by rewrite app_nil_r.
    + rewrite decide_False in Hprep by done.
      exists "p_np". eexists. split_and!; [|reflexivity| | |].
      * unfold script. erewrite bind_Raise; [reflexivity|exact Hprep].
      * apply Forall_app. split; apply calls_parse_only.
      * done.
      * done.
Qed.

End Proofs.

(** ** The claims on lines 15-46, on the small instance *)

Lemma Toy_csv_well_formed : well_formed Toy.csv.
Proof. unfold well_formed. split_and!; apply (bool_decide_unpack _); by vm_compute. Defined.

Lemma Toy_csv_strings : identifiers_are_strings Toy.csv.
Proof. apply (bool_decide_unpack _). by vm_compute. Defined.

Lemma in_columns (n : string) (df : DataFrame) :
  bool_decide (n ∈ columns df) = true → n ∈ columns df.
Proof. intros Hn. by apply bool_decide_eq_true in Hn. Defined.

Lemma Toy_csv_fresh : ∀ n, n ∈ descriptor_names → n ∉ columns Toy.csv.
Proof. apply (proj1 (Forall_forall _ _)), (bool_decide_unpack _). by vm_compute. Defined.

Lemma Toy_csv_survivors : survivors Toy.csv ≠ [].
Proof. discriminate. Defined.

Lemma unparsable_records_absent_witness :
  ∃ df σ',
    extraction Toy.csv Toy.σ0 = (Ok df, σ')
    ∧ prepare Toy.csv Toy.σ0 = (Ok (X_of Toy.csv, y_of Toy.csv), σ')
    ∧ y_of Toy.csv = [(0%nat, Int 1); (1%nat, Int 0)].
Proof.
  destruct (unparsable_records_absent Toy.csv Toy.σ0 Toy_csv_well_formed
              (in_columns "smiles" Toy.csv eq_refl) (in_columns "p_np" Toy.csv eq_refl)
              Toy_csv_strings)
    as (_ & Hsome & _).
  destruct (Hsome Toy_csv_survivors) as (df & σ' & Hext & _ & _ & Hprep & _ & Hy).
  exists df, σ'. split_and!; [done..|]. rewrite Hy. by vm_compute.
Defined.

Lemma invalid_identifier_excluded_witness :
  compute_descriptors (Str "xyz") Toy.σ0
  = (Ok PyNone, logged [MolFromSmiles_called "xyz"] Toy.σ0).
Proof. apply (invalid_identifier_excluded "xyz"). reflexivity. Defined.

Lemma Toy_csv_unparsable_well_formed : well_formed Toy.csv_unparsable.
Proof. unfold well_formed. split_and!; apply (bool_decide_unpack _); by vm_compute. Defined.

(** C8, as stated, fails on a table of which no identifier parses: the
    record is not silently excluded, line 37 raises. *)
Lemma invalid_identifier_excluded_counterexample :
  well_formed Toy.csv_unparsable
  ∧ identifiers_are_strings Toy.csv_unparsable
  ∧ MolFromSmiles "xyz" = None
  ∧ compute_descriptors (Str "xyz") Toy.σ0
    = (Ok PyNone, logged [MolFromSmiles_called "xyz"] Toy.σ0)
  ∧ extraction Toy.csv_unparsable Toy.σ0
    = (Raise (KeyError "valid_smiles"), logged [MolFromSmiles_called "xyz"] Toy.σ0).
Proof.
  split_and!; [apply Toy_csv_unparsable_well_formed| |done..].
  apply (bool_decide_unpack _). by vm_compute.
Qed.

Lemma second_filter_redundant_witness :
  (prepare Toy.csv Toy.σ0).1 = (prepare_without_second_filter Toy.csv Toy.σ0).1.
Proof.
  apply (second_filter_redundant Toy.csv Toy.σ0 Toy_csv_well_formed Toy_csv_survivors).
Defined.

(** C10, as stated, fails on a table of which no identifier parses: with
    lines 35-37 the run stops at line 37, without them lines 15-46
    return an X and a y without rows. *)
Lemma second_filter_redundant_counterexample :
  well_formed Toy.csv_unparsable
  ∧ prepare Toy.csv_unparsable Toy.σ0
    = (Raise (KeyError "valid_smiles"), logged [MolFromSmiles_called "xyz"] Toy.σ0)
  ∧ ∃ X, prepare_without_second_filter Toy.csv_unparsable Toy.σ0
         = (Ok (X, []), logged [MolFromSmiles_called "xyz"] Toy.σ0)
         ∧ rows X = [].
Proof.
  split_and!; [apply Toy_csv_unparsable_well_formed|done|].
  eexists. split; [by vm_compute|done].
Qed.

Lemma feature_rows_witness :
  ∃ X y σ',
    prepare Toy.csv Toy.σ0 = (Ok (X, y), σ')
    ∧ columns X = ["MolWt"; "MolLogP"; "NumHDonors"; "NumHAcceptors"; "TPSA"].
Proof.
  destruct (feature_rows Toy.csv Toy.σ0 Toy_csv_well_formed
              (in_columns "smiles" Toy.csv eq_refl) (in_columns "p_np" Toy.csv eq_refl)
              Toy_csv_strings Toy_csv_survivors
              Toy_csv_fresh) as (_ & X & y & σ' & Hprep & Hcols & _).
  by exists X, y, σ'.
Defined.

(** C2, as stated, fails on a table that already has a column named
    MolWt: both columns of that name are selected and X is six wide. *)
Lemma feature_rows_counterexample :
  well_formed Toy.csv_with_MolWt
  ∧ ∃ X y σ',
      prepare Toy.csv_with_MolWt Toy.σ0 = (Ok (X, y), σ')
      ∧ columns X = ["MolWt"; "MolWt"; "MolLogP"; "NumHDonors"; "NumHAcceptors"; "TPSA"]
      ∧ (λ r, length (cells r)) <$> rows X = [6; 6]%nat.
Proof.
  split.
  - unfold well_formed. split_and!; apply (bool_decide_unpack _); by vm_compute.
  - eexists _, _, _. split_and!; [by vm_compute|done..].
Qed.

Lemma missing_column_witness :
  ∃ evs,
    script Toy.csv_without_p_np Toy.σ0 = (Raise (KeyError "p_np"), logged evs Toy.σ0)
    ∧ Forall (λ ev, ∃ s, ev = MolFromSmiles_called s) evs.
Proof.
  destruct (proj2 (missing_column Toy.csv_without_p_np Toy.σ0))
    as (key & evs & Hrun & _ & Hevs & Hkey & _).
  - apply in_columns. reflexivity.
  - apply (bool_decide_unpack _). by vm_compute.
  - unfold well_formed. split_and!; apply (bool_decide_unpack _); by vm_compute.
  - apply (bool_decide_unpack _). by vm_compute.
  - exists evs. rewrite Hkey in Hrun by discriminate. by split.
Defined.

(** C3, as stated, fails on a table without the label column: the
    descriptor function has run on every identifier before the KeyError. *)
Lemma missing_column_counterexample :
  ("p_np" ∉ columns Toy.csv_without_p_np)
  ∧ script Toy.csv_without_p_np Toy.σ0
    = (Raise (KeyError "p_np"),
       {| log := [MolFromSmiles_called "CCO"; MolFromSmiles_called "xyz";
                  MolFromSmiles_called "CCO"];
          heap := ∅; clock := 0 |}).
Proof. split; [apply (bool_decide_unpack _)|]; by vm_compute. Qed.

(** ** Labels and the confusion matrix *)

Lemma elem_of_unique (y : list Z) (c : Z) : c ∈ unique y ↔ c ∈ y.
Proof. unfold unique. by rewrite merge_sort_Permutation, elem_of_remove_dups. Qed.

Lemma NoDup_unique (y : list Z) : NoDup (unique y).
Proof. unfold unique. rewrite merge_sort_Permutation. apply NoDup_remove_dups. Qed.

Lemma unique_ascending (y : list Z) : StronglySorted Z.lt (unique y).
Proof.
  pose proof (NoDup_unique y) as Hnd.
  assert (StronglySorted Z.le (unique y)) as Hle
    by (apply StronglySorted_merge_sort; apply _).
  induction Hle as [|c l Hl IH Hc]; [constructor|].
  apply NoDup_cons in Hnd as [Hin Hnd]. constructor; [by apply IH|].
  rewrite Forall_forall in Hc |- *. intros c' Hc'.
  specialize (Hc c' Hc'). assert (c ≠ c') by (by intros ->). lia.
Qed.

Lemma sum_list_fmap {A} (f : A → nat) (l : list A) :
  sum_list (f <$> l) = sum_list_with f l.
Proof. induction l; csimpl; auto. Qed.

Lemma sum_list_with_plus {A} (f g : A → nat) (l : list A) :
  sum_list_with (λ x, f x + g x)%nat l = (sum_list_with f l + sum_list_with g l)%nat.
Proof. induction l; simpl; lia. Qed.

Lemma sum_list_with_zero {A} (l : list A) : sum_list_with (λ _, 0%nat) l = 0%nat.
Proof. induction l; simpl; lia. Qed.

Lemma sum_list_with_ext {A} (f g : A → nat) (l : list A) :
  (∀ x, x ∈ l → f x = g x) → sum_list_with f l = sum_list_with g l.
Proof.
  induction l as [|a l IH]; intros Hfg; [done|]. simpl.
  rewrite Hfg by left. rewrite IH; [done|]. intros x Hx. apply Hfg. by right.
Qed.

(** Over distinct labels, exactly one of them is the label looked for. *)
Lemma sum_list_with_indicator (L : list Z) (x : Z) (n : nat) :
  NoDup L → x ∈ L → sum_list_with (λ t, if decide (x = t) then n else 0%nat) L = n.
Proof.
  induction L as [|a L IH]; intros Hnd Hx; [by apply elem_of_nil in Hx|].
  apply NoDup_cons in Hnd as [Ha Hnd]. simpl.
  destruct (decide (x = a)) as [->|Hne].
  - rewrite (sum_list_with_ext _ (λ _, 0%nat)), sum_list_with_zero; [lia|].
    intros t Ht. rewrite decide_False; [done|]. by intros <-.
  - rewrite IH; [done..|]. apply elem_of_cons in Hx as [?|?]; done.
Qed.

(** Every pair of labels is counted in exactly one cell. *)
Lemma cm_total (L : list Z) (zs : list (Z * Z)) :
  NoDup L → Forall (λ z, z.1 ∈ L ∧ z.2 ∈ L) zs →
  sum_list_with (λ t, sum_list_with (λ p, length (filter (λ tp, tp.1 = t ∧ tp.2 = p) zs)) L) L
  = length zs.
Proof.
  intros Hnd. induction 1 as [|z zs [Hz1 Hz2] Hzs IH].
  - rewrite (sum_list_with_ext _ (λ _, 0%nat)), sum_list_with_zero; [done|].
    intros t _. apply sum_list_with_zero.
  - simpl. rewrite <- IH.
    transitivity
      (sum_list_with
         (λ t, (if decide (z.1 = t) then 1 else 0)
               + sum_list_with (λ p, length (filter (λ tp, tp.1 = t ∧ tp.2 = p) zs)) L)%nat L);
      [|by rewrite sum_list_with_plus, sum_list_with_indicator].
    apply sum_list_with_ext. intros t Ht.
    destruct (decide (z.1 = t)) as [Ht1|Ht1].
    + transitivity
        (sum_list_with
           (λ p, (if decide (z.2 = p) then 1 else 0)
                 + length (filter (λ tp, tp.1 = t ∧ tp.2 = p) zs))%nat L);
        [|by rewrite sum_list_with_plus, sum_list_with_indicator].
      apply sum_list_with_ext. intros p Hp.
      rewrite filter_cons.
      destruct (decide (z.2 = p)); [rewrite decide_True by done|rewrite decide_False by tauto];
        simpl; lia.
    + simpl. apply sum_list_with_ext. intros p Hp.
      rewrite filter_cons, decide_False by tauto. done.
Qed.

Lemma unique_0_1 (y : list Z) : (∀ c, c ∈ y ↔ c = 0 ∨ c = 1) → unique y = [0; 1].
Proof.
  intros Hy. apply (Sorted_unique Z.le).
  - apply Sorted_merge_sort, _.
  - repeat constructor. lia.
  - apply NoDup_Permutation; [apply NoDup_unique| |].
    + apply (bool_decide_unpack _). by vm_compute.
    + intros c. rewrite elem_of_unique, Hy.
      rewrite !elem_of_cons, elem_of_nil. tauto.
Qed.

Section Evaluation.
Context `{Sklearn}.

Lemma confusion_matrix_ok (y_true y_pred : list Z) :
  length y_true = length y_pred →
  confusion_matrix y_true y_pred
  = Ok ((λ t, (λ p, cm_count y_true y_pred t p) <$> unique (y_true ++ y_pred))
        <$> unique (y_true ++ y_pred)).
Proof. intros Hlen. unfold confusion_matrix. by rewrite decide_True. Qed.

(** X14: the evaluator's confusion matrix is square, with one row and
    one column for each label that occurs among the test labels or the
    predictions, in ascending order of the labels; the cell in row t
    and column p counts the test records of actual class t and
    predicted class p; its cells sum to the number of test records; and
    it is 2×2, class 0 first, when the labels that occur are 0 and 1. *)
Theorem confusion_matrix_cells (best_model : nat) e m X_test y_test σ :
  heap σ !! best_model = Some (Estimator e (Some m)) →
  length X_test = length y_test →
  let y_pred := infer m X_test in
  let labels := unique (y_test ++ y_pred) in
  ∃ cm,
    evaluate best_model X_test y_test σ
    = (Ok (accuracy_score y_test y_pred, cm), logged [predict_called best_model] σ)
    ∧ StronglySorted Z.lt labels
    ∧ (∀ c, c ∈ labels ↔ c ∈ y_test ∨ c ∈ y_pred)
    ∧ length cm = length labels
    ∧ (∀ i j t p, labels !! i = Some t → labels !! j = Some p →
         ∃ row, cm !! i = Some row ∧ length row = length labels
                ∧ row !! j = Some (cm_count y_test y_pred t p))
    ∧ sum_list (sum_list <$> cm) = length y_test
    ∧ ((∀ c, c ∈ y_test ∨ c ∈ y_pred ↔ c = 0 ∨ c = 1) →
       cm = [[cm_count y_test y_pred 0 0; cm_count y_test y_pred 0 1];
             [cm_count y_test y_pred 1 0; cm_count y_test y_pred 1 1]]).
Proof.
  intros Hbest Hlen. cbv zeta.
  assert (length y_test = length (infer m X_test)) as Hlen' by by rewrite infer_length.
  eexists. split_and!.
  - unfold evaluate. erewrite bind_Ok; cycle 1.
    { unfold predict. by rewrite Hbest. }
    rewrite confusion_matrix_ok by done. reflexivity.
  - apply unique_ascending.
  - intros c. by rewrite elem_of_unique, elem_of_app.
  - by rewrite length_fmap.
  - intros i j t p Hi Hj. eexists. split_and!.
    + by rewrite list_lookup_fmap, Hi.
    + by rewrite length_fmap.
    + by rewrite list_lookup_fmap, Hj.
  - rewrite <- list_fmap_compose, sum_list_fmap.
    erewrite sum_list_with_ext; cycle 1.
    { intros t _. unfold compose. apply sum_list_fmap. }
    unfold cm_count. rewrite cm_total.
    + rewrite length_zip. lia.
    + apply NoDup_unique.
    + apply Forall_forall. intros [t p] Hin. rewrite !elem_of_unique, !elem_of_app.
      split; [left; by eapply elem_of_zip_l|right; by eapply elem_of_zip_r].
  - intros H01.
    assert (unique (y_test ++ infer m X_test) = [0; 1]) as ->; [|done].
    apply unique_0_1. intros c. by rewrite elem_of_app.
Qed.

End Evaluation.

Lemma confusion_matrix_cells_witness :
  ∃ cm, evaluate 0 [[]; []; []] [1; 0; 1] Toy.σ1
        = (Ok (accuracy_score [1; 0; 1] [1; 1; 1], cm), logged [predict_called 0] Toy.σ1)
        ∧ sum_list (sum_list <$> cm) = 3%nat.
Proof.
  destruct (confusion_matrix_cells (H := Toy.sklearn) 0 GradientBoostingClassifier 1
              [[]; []; []] [1; 0; 1] Toy.σ1)
    as (cm & Hrun & _ & _ & _ & _ & Hsum & _).
  - by vm_compute.
  - reflexivity.
  - exists cm. split; [exact Hrun|exact Hsum].
Defined.

(** When the test labels and the predictions are all of one class, the
    matrix has a single cell. *)
Lemma unique_single (c : Z) (l : list Z) :
  l ≠ [] → Forall (λ v, v = c) l → unique l = [c].
Proof.
  intros Hne Hall. apply (Sorted_unique Z.le).
  - apply Sorted_merge_sort, _.
  - repeat constructor.
  - apply NoDup_Permutation; [apply NoDup_unique|apply NoDup_singleton|].
    intros v. rewrite elem_of_unique, list_elem_of_singleton.
    rewrite Forall_forall in Hall. split; [apply Hall|].
    intros ->. destruct l as [|v l]; [done|].
    rewrite (Hall v) by left. left.
Qed.

Lemma confusion_matrix_single (c : Z) (y_true y_pred : list Z) :
  y_true ≠ [] → length y_true = length y_pred →
  Forall (λ v, v = c) y_true → Forall (λ v, v = c) y_pred →
  confusion_matrix y_true y_pred = Ok [[length y_true]].
Proof.
  intros Hne Hlen Htrue Hpred. rewrite confusion_matrix_ok by done.
  rewrite (unique_single c); cycle 1.
  { intros [Hnil _]%app_eq_nil. done. }
  { by apply Forall_app. }
  cbn [fmap list_fmap]. do 3 f_equal. unfold cm_count.
  rewrite (filter_all (λ tp : Z * Z, tp.1 = c ∧ tp.2 = c)).
  - rewrite length_zip. lia.
  - apply Forall_forall. intros [t p] Hin. simpl.
    rewrite Forall_forall in Htrue, Hpred. split.
    + apply Htrue. by eapply elem_of_zip_l.
    + apply Hpred. by eapply elem_of_zip_r.
Qed.

(** C6: on ten molecules that are all of class 1 lines 15-90 go through:
    the eight training and the two test records are of class 1, so are
    the two predictions, and the matrix of line 90 is the single cell
    2, not a 2×2 matrix. *)
Theorem confusion_matrix_single_class :
  well_formed Toy.csv_all_positive
  ∧ ∃ X_train X_test gs acc σ',
      (prepare Toy.csv_all_positive ≫= λ Xy, tune_and_evaluate Xy.1 Xy.2) Toy.σ0
      = (Ok (X_train, X_test, replicate 8 1, [1; 1], gs, (acc, [[2%nat]])), σ')
      ∧ confusion_matrix [1; 1] [1; 1] = Ok [[2%nat]].
Proof.
  split.
  - unfold well_formed. split_and!; apply (bool_decide_unpack _); by vm_compute.
  - eexists _, _, _, _, _. split; [by vm_compute|].
    apply (confusion_matrix_single 1); [done|done|by repeat constructor..].
Qed.

(** ** The grid search *)

Lemma argmax_from_spec (pre rest : list Q) (best : nat) (best_score : Q) :
  (pre ++ rest) !! best = Some best_score →
  (best < length pre)%nat →
  (∀ s, s ∈ pre → (s <= best_score)%Q) →
  (∀ j s, (j < best)%nat → (pre ++ rest) !! j = Some s → (s < best_score)%Q) →
  ∃ s, (pre ++ rest) !! argmax_from best best_score (length pre) rest = Some s
       ∧ (∀ s', s' ∈ pre ++ rest → (s' <= s)%Q)
       ∧ (∀ j s', (j < argmax_from best best_score (length pre) rest)%nat →
                  (pre ++ rest) !! j = Some s' → (s' < s)%Q).
Proof.
  revert pre best best_score.
  induction rest as [|s rest IH]; intros pre best best_score Hbest Hlt Hmax Hfirst.
  - simpl. exists best_score. rewrite app_nil_r in *. eauto.
  - simpl. replace (S (length pre)) with (length (pre ++ [s])) by (rewrite length_app; simpl; lia).
    rewrite (cons_middle s pre rest), app_assoc in *.
    destruct (Qlt_le_dec best_score s) as [Hs|Hs].
    + apply IH.
      * rewrite lookup_app_l by (rewrite length_app; simpl; lia).
        by rewrite lookup_app_r, Nat.sub_diag by lia.
      * rewrite length_app. simpl. lia.
      * intros s' [Hs'| ->%list_elem_of_singleton]%elem_of_app.
        -- apply Qlt_le_weak. eapply Qle_lt_trans; [by apply Hmax|done].
        -- apply Qle_refl.
      * intros j s' Hj Hlook. eapply Qle_lt_trans; [|exact Hs]. apply Hmax.
        rewrite <- app_assoc, lookup_app_l in Hlook by lia.
        by eapply list_elem_of_lookup_2.
    + apply IH; [done| | |done].
      * rewrite length_app. simpl. lia.
      * intros s' [Hs'| ->%list_elem_of_singleton]%elem_of_app; [by apply Hmax|done].
Qed.

(** [argmax] is the first position of a greatest score. *)
Lemma argmax_spec (scores : list Q) :
  scores ≠ [] →
  ∃ s, scores !! argmax scores = Some s
       ∧ (∀ s', s' ∈ scores → (s' <= s)%Q)
       ∧ (∀ j s', (j < argmax scores)%nat → scores !! j = Some s' → (s' < s)%Q).
Proof.
  destruct scores as [|s scores]; [done|]. intros _. unfold argmax.
  apply (argmax_from_spec [s] scores 0 s); [done|simpl; lia| |lia].
  intros s' ->%list_elem_of_singleton. apply Qle_refl.
Qed.




Section GridSearch.
Context `{Sklearn}.



End GridSearch.

(** ** The comparison loop *)

Section Comparison.
Context `{Sklearn}.

Lemma new_run e σ :
  new e σ
  = (Ok (fresh (dom (heap σ))),
     {| log := log σ; heap := <[fresh (dom (heap σ)) := Estimator e None]> (heap σ);
        clock := clock σ |}).
Proof. done. Qed.


(** One turn of the loop of line 113. *)
Lemma compare_step (name : string) (clf : nat) est X_train y_train X_test y_test σ :
  heap σ !! clf = Some est →
  (_ ← fit clf X_train y_train; pred ← predict clf X_test;
   mret (name, accuracy_score y_test pred)) σ
  = (Ok (name, accuracy_score y_test (infer (train (spec est) (clock σ) X_train y_train) X_test)),
     {| log := log σ ++ [fit_called clf; predict_called clf];
        heap := <[clf := Estimator (spec est)
                           (Some (train (spec est) (clock σ) X_train y_train))]> (heap σ);
        clock := S (clock σ) |}).
Proof.
  intros Hclf. erewrite bind_Ok; cycle 1.
  { unfold fit. rewrite Hclf. reflexivity. }
  erewrite bind_Ok; cycle 1.
  { unfold predict. cbn [heap]. rewrite lookup_insert_eq. reflexivity. }
  unfold logged. cbn [log heap clock]. by rewrite <- app_assoc.
Qed.


End Comparison.

(** ** The stratified split *)

Section Counting.
Local Open Scope nat_scope.

Lemma sum_list_with_indicator_gen {K} `{EqDecision K} (ks : list K) (x : K) (n : nat) :
  NoDup ks → x ∈ ks → sum_list_with (λ k, if decide (x = k) then n else 0) ks = n.
Proof.
  induction ks as [|a ks IH]; intros Hnd Hx; [by apply elem_of_nil in Hx|].
  apply NoDup_cons in Hnd as [Ha Hnd]. simpl.
  destruct (decide (x = a)) as [->|Hne].
  - rewrite (sum_list_with_ext _ (λ _, 0)), sum_list_with_zero; [lia|].
    intros t Ht. rewrite decide_False; [done|]. by intros <-.
  - rewrite IH; [done..|]. apply elem_of_cons in Hx as [?|?]; done.
Qed.

(** Sorting a list by a key into distinct bins loses nothing. *)
Lemma partition_count {A K} `{EqDecision K} (key : A → K) (ks : list K) (l : list A) :
  NoDup ks → Forall (λ x, key x ∈ ks) l →
  sum_list_with (λ k, length (filter (λ x, key x = k) l)) ks = length l.
Proof.
  intros Hnd. induction 1 as [|x l Hx Hl IH].
  - rewrite (sum_list_with_ext _ (λ _, 0)), sum_list_with_zero; [done|]. done.
  - simpl. rewrite <- IH.
    transitivity
      (sum_list_with
         (λ k, (if decide (key x = k) then 1 else 0) + length (filter (λ x, key x = k) l)) ks);
      [|by rewrite sum_list_with_plus, sum_list_with_indicator_gen].
    apply sum_list_with_ext. intros k Hk. rewrite filter_cons.
    by destruct (decide (key x = k)).
Qed.

Lemma sum_list_with_fmap {A B} (f : B → nat) (g : A → B) (l : list A) :
  sum_list_with f (g <$> l) = sum_list_with (f ∘ g) l.
Proof. induction l; csimpl; auto. Qed.

(** [bump] adds one at each of the chosen positions. *)
Lemma length_bump inds a : length (bump inds a) = length a.
Proof. apply length_imap. Qed.

Lemma lookup_bump inds a i :
  bump inds a !! i = (λ x, if decide (i ∈ inds) then S x else x) <$> a !! i.
Proof. apply list_lookup_imap. Qed.

Lemma sum_list_bump_filter inds a :
  sum_list (bump inds a)
  = sum_list a + length (filter (λ i, i ∈ inds) (seq 0 (length a))).
Proof.
  unfold bump. induction a as [|x a IH] using rev_ind; [done|].
  rewrite imap_app, !sum_list_with_app, IH, length_app, seq_app, filter_app, length_app.
  simpl. rewrite !Nat.add_0_r, filter_cons, filter_nil.
  destruct (decide (length a ∈ inds)); simpl; lia.
Qed.

Lemma sum_list_bump inds a :
  NoDup inds → (∀ i, i ∈ inds → i < length a) →
  sum_list (bump inds a) = sum_list a + length inds.
Proof.
  intros Hnd Hlt. rewrite sum_list_bump_filter. f_equal.
  apply Permutation_length, NoDup_Permutation; [apply NoDup_filter, NoDup_seq|done|].
  intros i. rewrite list_elem_of_filter, elem_of_seq. split; [tauto|].
  intros Hi. split; [done|]. specialize (Hlt i Hi). lia.
Qed.

(** The shares, their floors and their remainders. *)
Lemma sum_shares (d T : nat) (l : list nat) :
  sum_list_with (λ c, c * d) l
  = T * sum_list_with (λ c, c * d / T) l + sum_list_with (λ c, (c * d) `mod` T) l.
Proof.
  induction l as [|c l IH]; simpl; [lia|].
  rewrite IH. pose proof (Nat.div_mod_eq (c * d) T). lia.
Qed.

Lemma sum_scaled (d : nat) (l : list nat) :
  sum_list_with (λ c, c * d) l = d * sum_list l.
Proof. induction l as [|c l IH]; simpl; [lia|]. rewrite IH. lia. Qed.

Lemma sum_remainders (d T : nat) (l : list nat) :
  0 < T → sum_list_with (λ c, (c * d) `mod` T) l ≤ length l * (T - 1).
Proof.
  intros HT. induction l as [|c l IH]; simpl; [lia|].
  pose proof (Nat.mod_upper_bound (c * d) T). lia.
Qed.

Lemma floors_bound (d : nat) (l : list nat) :
  0 < sum_list l →
  sum_list_with (λ c, c * d / sum_list l) l ≤ d
  ∧ d - sum_list_with (λ c, c * d / sum_list l) l ≤ length l.
Proof.
  intros HT.
  pose proof (sum_shares d (sum_list l) l) as Hsh. rewrite sum_scaled in Hsh.
  pose proof (sum_remainders d (sum_list l) l HT).
  split; nia.
Qed.

End Counting.

Section Split.
Context `{NumpyRandom}.
Local Open Scope nat_scope.

Lemma NoDup_of_submseteq {A} (l k : list A) : l ⊆+ k → NoDup k → NoDup l.
Proof.
  intros [k' Hk]%submseteq_Permutation Hnd. rewrite Hk in Hnd.
  by apply NoDup_app in Hnd as [? _].
Qed.

(** The loop of [_approximate_mode] hands out all of [need_to_add], as long
    as there are that many positions, and at most one to each position. *)
Lemma add_by_remainder_spec remainder values floored need_to_add rng :
  NoDup values → length floored = length remainder →
  need_to_add ≤ sum_list_with (λ v, length (at_remainder remainder v)) values →
  let out := (add_by_remainder remainder values floored need_to_add rng).1 in
  length out = length floored
  ∧ sum_list out = sum_list floored + need_to_add
  ∧ ∀ i f, floored !! i = Some f →
      out !! i = Some f
      ∨ (out !! i = Some (S f) ∧ ∃ v, v ∈ values ∧ remainder !! i = Some v).
Proof.
  revert floored need_to_add rng.
  induction values as [|v values IH]; intros floored need rng Hnd Hlen Hcap; simpl in *.
  - split_and!; [done|lia|auto].
  - fold (at_remainder remainder v).
    apply NoDup_cons in Hnd as [Hv Hnd].
    set (add_now := length (at_remainder remainder v) `min` need).
    pose proof (choice_submseteq rng (at_remainder remainder v) add_now) as Hsub.
    pose proof (choice_length rng (at_remainder remainder v) add_now) as Hlenc.
    destruct (choice rng (at_remainder remainder v) add_now) as [chosen rng1]. simpl in *.
    specialize (Hsub ltac:(lia)). specialize (Hlenc ltac:(lia)).
    assert (∀ i, i ∈ chosen → i < length floored ∧ remainder !! i = Some v) as Hchosen.
    { intros i Hi. eapply elem_of_submseteq in Hi; [|done].
      apply list_elem_of_filter in Hi as [? Hi%elem_of_seq]. split; [lia|done]. }
    assert (NoDup chosen) as Hndc.
    { eapply NoDup_of_submseteq; [done|]. apply NoDup_filter, NoDup_seq. }
    assert (sum_list (bump chosen floored) = sum_list floored + add_now) as Hsum.
    { rewrite sum_list_bump; [lia|done|]. intros i Hi. by apply Hchosen. }
    assert (∀ i f, floored !! i = Some f →
              bump chosen floored !! i = Some (if decide (i ∈ chosen) then S f else f)) as Hb.
    { intros i f Hi. by rewrite lookup_bump, Hi. }
    destruct (decide (need - add_now = 0)) as [Hdone|Hmore]; simpl.
    + split_and!; [apply length_bump|lia|].
      intros i f Hi. rewrite (Hb i f Hi). case_decide; [right|by left].
      split; [done|]. exists v. split; [left|by apply Hchosen].
    + destruct (IH (bump chosen floored) (need - add_now) rng1) as (Hl & Hs & Hone);
        [done|by rewrite length_bump|lia|].
      split_and!; [by rewrite Hl, length_bump|lia|].
      intros i f Hi. specialize (Hb i f Hi).
      destruct (Hone i _ Hb) as [Hout|(Hout & v' & Hv' & Hrem)].
      * rewrite Hout. case_decide as Hin; [right|by left].
        split; [done|]. exists v. split; [left|by apply Hchosen].
      * case_decide as Hin.
        -- destruct (Hchosen i Hin) as [_ Hrem']. congruence.
        -- right. split; [done|]. exists v'. split; [by right|done].
Qed.

Lemma approximate_mode_spec class_counts n_draws rng :
  0 < sum_list class_counts →
  let out := (approximate_mode class_counts n_draws rng).1 in
  length out = length class_counts
  ∧ sum_list out = n_draws
  ∧ ∀ i c, class_counts !! i = Some c →
      out !! i = Some (c * n_draws / sum_list class_counts)
      ∨ out !! i = Some (S (c * n_draws / sum_list class_counts)).
Proof.
  intros HT. unfold approximate_mode.
  set (T := sum_list class_counts) in *.
  set (floored := (λ c, c * n_draws / T) <$> class_counts).
  set (remainder := (λ c, (c * n_draws) `mod` T) <$> class_counts).
  destruct (floors_bound n_draws class_counts HT) as [Hle Hneed].
  fold T in Hle, Hneed. rewrite <- sum_list_fmap in Hle, Hneed. fold floored in Hle, Hneed.
  assert (∀ i c, class_counts !! i = Some c → floored !! i = Some (c * n_draws / T)) as Hfl.
  { intros i c Hi. unfold floored. by rewrite list_lookup_fmap, Hi. }
  case_decide as Hpos; simpl.
  - set (values := reverse (merge_sort le (remove_dups remainder))).
    destruct (add_by_remainder_spec remainder values floored
                (n_draws - sum_list floored) rng) as (Hl & Hs & Hone).
    + unfold values. rewrite reverse_Permutation, merge_sort_Permutation.
      apply NoDup_remove_dups.
    + unfold floored, remainder. by rewrite !length_fmap.
    + assert (sum_list_with (λ v, length (at_remainder remainder v)) values
              = length remainder) as ->;
        [|unfold remainder; rewrite length_fmap; lia].
      transitivity
        (sum_list_with
           (λ k, length (filter (λ i, remainder !! i = k) (seq 0 (length remainder))))
           (Some <$> values)); [by rewrite sum_list_with_fmap|].
      rewrite partition_count; [by rewrite length_seq| |].
      * apply (NoDup_fmap_2 _). unfold values.
        rewrite reverse_Permutation, merge_sort_Permutation. apply NoDup_remove_dups.
      * apply Forall_forall. intros i [_ Hi]%elem_of_seq.
        destruct (lookup_lt_is_Some_2 remainder i ltac:(lia)) as [v Hv].
        rewrite Hv. apply list_elem_of_fmap_2. unfold values.
        rewrite reverse_Permutation, merge_sort_Permutation, elem_of_remove_dups.
        by eapply list_elem_of_lookup_2.
    + split_and!.
      * rewrite Hl. unfold floored. by rewrite length_fmap.
      * lia.
      * intros i c Hi. destruct (Hone i _ (Hfl i c Hi)) as [?|[? _]]; auto.
  - split_and!.
    + unfold floored. by rewrite length_fmap.
    + lia.
    + intros i c Hi. left. by apply Hfl.
Qed.

(** When the draws are all there is, every class gives all it has. *)
Lemma approximate_mode_all class_counts rng :
  0 < sum_list class_counts →
  approximate_mode class_counts (sum_list class_counts) rng = (class_counts, rng).
Proof.
  intros HT. unfold approximate_mode.
  assert ((λ c, c * sum_list class_counts / sum_list class_counts) <$> class_counts
          = class_counts) as ->.
  { transitivity (id <$> class_counts); [|apply list_fmap_id].
    apply list_fmap_ext. intros i c _. apply Nat.div_mul. lia. }
  rewrite decide_False by lia. done.
Qed.

Lemma cnt_app y c l k : cnt y c (l ++ k) = cnt y c l + cnt y c k.
Proof. unfold cnt. by rewrite filter_app, length_app. Qed.

Global Instance cnt_Permutation y c : Proper ((≡ₚ) ==> (=)) (cnt y c).
Proof. intros l k Hlk. unfold cnt. by rewrite Hlk. Qed.

Lemma cnt_all y c l : Forall (λ i, y !! i = Some c) l → cnt y c l = length l.
Proof. intros Hl. unfold cnt. by rewrite filter_all. Qed.

Lemma cnt_none y c l : Forall (λ i, y !! i ≠ Some c) l → cnt y c l = 0.
Proof. intros Hl. unfold cnt. by rewrite filter_none. Qed.

Lemma count_of_take_rows (y : list Z) c l : count_of c (take_rows y l) = cnt y c l.
Proof.
  unfold count_of, take_rows, cnt. induction l as [|i l IH]; [done|].
  csimpl. rewrite (filter_cons _ i). destruct (y !! i) as [v|] eqn:Hv.
  - rewrite filter_cons. destruct (decide (v = c)) as [->|Hne].
    + rewrite decide_True by done. simpl. by rewrite IH.
    + rewrite decide_False by congruence. done.
  - rewrite decide_False by done. done.
Qed.

Lemma take_rows_seq {A} (pre a : list A) :
  take_rows (pre ++ a) (seq (length pre) (length a)) = a.
Proof.
  revert pre. induction a as [|x a IH]; intros pre; [done|].
  unfold take_rows in *. csimpl.
  rewrite lookup_app_r, Nat.sub_diag by lia. simpl. f_equal.
  specialize (IH (pre ++ [x])). rewrite <- app_assoc, length_app in IH. simpl in IH.
  by rewrite Nat.add_1_r in IH.
Qed.

Lemma take_rows_all {A} (a : list A) : take_rows a (seq 0 (length a)) = a.
Proof. apply (take_rows_seq [] a). Qed.

Lemma shuffle_Permutation a rng : (shuffle a rng).1 ≡ₚ a.
Proof.
  unfold shuffle. pose proof (permutation_spec rng (length a)) as Hperm.
  destruct (permutation rng (length a)) as [perm rng1]. simpl in *.
  unfold take_rows. rewrite Hperm. apply reflexive_eq, take_rows_all.
Qed.

Lemma elem_of_where c y i : i ∈ where_ c y ↔ y !! i = Some c.
Proof.
  unfold where_. rewrite list_elem_of_filter, elem_of_seq. split; [tauto|].
  intros Hi. split; [done|]. apply lookup_lt_Some in Hi. lia.
Qed.

Lemma NoDup_where c y : NoDup (where_ c y).
Proof. apply NoDup_filter, NoDup_seq. Qed.

Lemma length_where c y : length (where_ c y) = count_of c y.
Proof.
  rewrite <- (take_rows_all y) at 2. by rewrite count_of_take_rows.
Qed.

Lemma elem_of_where_join (y : list Z) (cs : list Z) i :
  i ∈ mjoin ((λ c, where_ c y) <$> cs) ↔ ∃ c, c ∈ cs ∧ y !! i = Some c.
Proof.
  rewrite list_elem_of_join. split.
  - intros (l & Hi & (c & -> & Hc)%list_elem_of_fmap). exists c.
    by rewrite elem_of_where in Hi.
  - intros (c & Hc & Hi). exists (where_ c y). rewrite elem_of_where.
    split; [done|]. by apply (list_elem_of_fmap_2 (λ c, where_ c y)).
Qed.

(** The positions of the classes, one class after the other, are all
    the positions. *)
Lemma where_partition (y : list Z) :
  mjoin ((λ c, where_ c y) <$> unique y) ≡ₚ seq 0 (length y).
Proof.
  apply NoDup_Permutation; [|apply NoDup_seq|].
  - pose proof (NoDup_unique y) as Hnd.
    induction Hnd as [|c cs Hc Hnd IH]; csimpl; [constructor|].
    apply NoDup_app. split_and!; [apply NoDup_where| |done].
    intros i Hi%elem_of_where (c' & Hc' & Hi')%elem_of_where_join. congruence.
  - intros i. rewrite elem_of_where_join, elem_of_seq. split.
    + intros (c & _ & Hi%lookup_lt_Some). lia.
    + intros [_ Hi]. destruct (lookup_lt_is_Some_2 y i Hi) as [c Hc].
      exists c. split; [|done]. apply elem_of_unique. by eapply list_elem_of_lookup_2.
Qed.

(** The loop over the classes: each class gives its first [n] shuffled
    positions to the training part and the rest to the test part. *)
Lemma split_classes_spec (y : list Z) (cs : list Z) (n_i t_i : list nat) rng :
  NoDup cs → length n_i = length cs → length t_i = length cs →
  (∀ j c n t, cs !! j = Some c → n_i !! j = Some n → t_i !! j = Some t →
              n + t = count_of c y) →
  let r := split_classes n_i t_i ((λ c, where_ c y) <$> cs) rng in
  r.1.1 ++ r.1.2 ≡ₚ mjoin ((λ c, where_ c y) <$> cs)
  ∧ length r.1.1 = sum_list n_i ∧ length r.1.2 = sum_list t_i
  ∧ (∀ j c n t, cs !! j = Some c → n_i !! j = Some n → t_i !! j = Some t →
                cnt y c r.1.1 = n ∧ cnt y c r.1.2 = t)
  ∧ (∀ c, c ∉ cs → cnt y c r.1.1 = 0 ∧ cnt y c r.1.2 = 0).
Proof.
  revert n_i t_i rng.
  induction cs as [|c0 cs IH]; intros n_i t_i rng Hnd Hn Ht Hsum.
  - by destruct n_i, t_i.
  - destruct n_i as [|n0 n_i], t_i as [|t0 t_i]; try done.
    apply NoDup_cons in Hnd as [Hc0 Hnd].
    pose proof (Hsum 0 c0 n0 t0 eq_refl eq_refl eq_refl) as Hsum0.
    csimpl.
    pose proof (shuffle_Permutation (where_ c0 y) rng) as Hperm.
    destruct (shuffle (where_ c0 y) rng) as [perm rng1]. simpl in Hperm.
    specialize (IH n_i t_i rng1 Hnd ltac:(simpl in *; lia) ltac:(simpl in *; lia)).
    destruct IH as (IHperm & IHn & IHt & IHcnt & IHnone).
    { intros j c n t Hj Hnj Htj. by apply (Hsum (S j) c n t). }
    destruct (split_classes n_i t_i ((λ c, where_ c y) <$> cs) rng1) as [[train test] rng2].
    simpl in *.
    assert (length perm = n0 + t0) as Hlen.
    { by rewrite Hperm, length_where. }
    assert (Forall (λ i, y !! i = Some c0) perm) as Hlab.
    { apply Forall_forall. intros i Hi. rewrite Hperm in Hi. by apply elem_of_where. }
    assert (take t0 (drop n0 perm) = drop n0 perm) as ->.
    { apply take_ge. rewrite length_drop. lia. }
    assert (∀ c, c ≠ c0 → cnt y c (take n0 perm) = 0 ∧ cnt y c (drop n0 perm) = 0) as Hother.
    { intros c Hc. split; apply cnt_none.
      - apply Forall_take. eapply Forall_impl; [done|]. intros i Hi. simpl in Hi. congruence.
      - apply Forall_drop. eapply Forall_impl; [done|]. intros i Hi. simpl in Hi. congruence. }
    split_and!.
    + rewrite <- IHperm, <- Hperm.
      transitivity ((take n0 perm ++ drop n0 perm) ++ train ++ test);
        [|by rewrite take_drop].
      rewrite <- !app_assoc. f_equiv. apply Permutation_app_swap_app.
    + rewrite length_app, length_take, IHn. lia.
    + rewrite length_app, length_drop, IHt. lia.
    + intros [|j] c n t Hj Hnj Htj; simpl in Hj, Hnj, Htj.
      * injection Hj as <-. injection Hnj as <-. injection Htj as <-.
        rewrite !cnt_app. destruct (IHnone c0 Hc0) as [-> ->].
        rewrite !cnt_all by (by apply Forall_take || by apply Forall_drop).
        rewrite length_take, length_drop. lia.
      * rewrite !cnt_app. destruct (IHcnt j c n t Hj Hnj Htj) as [-> ->].
        assert (c ≠ c0) as Hne.
        { intros ->. apply Hc0. by eapply list_elem_of_lookup_2. }
        destruct (Hother c Hne) as [-> ->]. done.
    + intros c [Hne Hc]%not_elem_of_cons. rewrite !cnt_app.
      destruct (Hother c Hne) as [-> ->]. destruct (IHnone c Hc) as [-> ->]. done.
Qed.

Lemma sum_counts (y : list Z) : sum_list ((λ c, count_of c y) <$> unique y) = length y.
Proof.
  rewrite sum_list_fmap. unfold count_of.
  apply (partition_count id); [apply NoDup_unique|].
  apply Forall_forall. intros c Hc. by apply elem_of_unique.
Qed.

Lemma count_of_not_in (y : list Z) c : c ∉ y → count_of c y = 0.
Proof.
  intros Hc. unfold count_of. rewrite filter_none; [done|].
  apply Forall_forall. by intros v Hv ->.
Qed.

Lemma sum_zip_minus (a b : list nat) :
  length a = length b →
  (∀ i x z, a !! i = Some x → b !! i = Some z → z ≤ x) →
  sum_list (zip_with minus a b) + sum_list b = sum_list a.
Proof.
  revert b. induction a as [|x a IH]; intros [|z b] Hlen Hle; simplify_eq/=; [done|].
  pose proof (Hle 0 x z eq_refl eq_refl).
  specialize (IH b ltac:(done) (λ i, Hle (S i))). lia.
Qed.

(** A fifth, rounded up. *)
Lemma ceil_fifth (n : nat) :
  Z.to_nat (Qceiling ((1 # 5) * inject_Z (Z.of_nat n))) = (n + 4) / 5.
Proof.
  unfold Qceiling, Qfloor, Qmult, Qopp, inject_Z. simpl Qnum. simpl Qden.
  apply Nat2Z.inj. rewrite Nat2Z.inj_div, Nat2Z.inj_add.
  change (Z.of_nat 4) with 4%Z. change (Z.of_nat 5) with 5%Z.
  change (Z.pos (5 * 1)) with 5%Z. rewrite Z.mul_1_l.
  rewrite Z2Nat.id; Z.div_mod_to_equations; lia.
Qed.

Lemma StratifiedShuffleSplit_spec (y : list Z) (n_train n_test : nat) (random_state : Z) :
  n_train + n_test = length y → 0 < n_test →
  Forall (λ c, 2 ≤ count_of c y) (unique y) →
  length (unique y) ≤ n_train → length (unique y) ≤ n_test →
  ∃ train test,
    StratifiedShuffleSplit n_train n_test random_state y = Ok (train, test)
    ∧ train ++ test ≡ₚ seq 0 (length y)
    ∧ length train = n_train ∧ length test = n_test
    ∧ ∀ c, proportional (cnt y c train) n_train (count_of c y) (length y)
           ∧ proportional (cnt y c test) n_test (count_of c y) (length y).
Proof.
  intros Hn Htest Htwo Hktrain Hktest. unfold StratifiedShuffleSplit.
  set (cs := unique y) in *. set (cc := (λ c, count_of c y) <$> cs).
  assert (sum_list cc = length y) as HT by apply sum_counts.
  rewrite decide_False; cycle 1.
  { intros (c & (c' & -> & Hc')%list_elem_of_fmap & Hlt)%Exists_exists.
    rewrite Forall_forall in Htwo. specialize (Htwo c' Hc'). lia. }
  rewrite !decide_False by lia.
  destruct (approximate_mode_spec cc n_train (seed random_state)) as (Hln & Hsn & Hfl); [lia|].
  destruct (approximate_mode cc n_train (seed random_state)) as [n_i rng1]. simpl in Hln, Hsn, Hfl.
  assert (∀ j c n, cs !! j = Some c → n_i !! j = Some n →
            n ≤ count_of c y ∧ proportional n n_train (count_of c y) (length y)) as Hn_i.
  { intros j c n Hj Hnj.
    assert (cc !! j = Some (count_of c y)) as Hcc by (unfold cc; by rewrite list_lookup_fmap, Hj).
    rewrite Forall_forall in Htwo.
    pose proof (Htwo c ltac:(by eapply list_elem_of_lookup_2)) as HC.
    rewrite HT in Hfl.
    pose proof (Nat.Div0.mul_div_le (count_of c y * n_train) (length y)).
    pose proof (Nat.mul_succ_div_gt (count_of c y * n_train) (length y) ltac:(lia)).
    unfold proportional.
    destruct (Hfl j _ Hcc) as [Hf|Hf]; rewrite Hnj in Hf; injection Hf as ->; nia. }
  set (remaining := zip_with minus cc n_i).
  assert (length cc = length cs) as Hlcc by (unfold cc; by rewrite length_fmap).
  assert (sum_list remaining + n_train = length y) as Hrem.
  { rewrite <- Hsn, <- HT. apply sum_zip_minus; [lia|].
    intros j C n Hj Hnj. unfold cc in Hj.
    apply list_lookup_fmap_Some in Hj as (c & -> & Hj). by apply (Hn_i j c n). }
  assert (approximate_mode remaining n_test rng1 = (remaining, rng1)) as ->.
  { replace n_test with (sum_list remaining) by lia. apply approximate_mode_all. lia. }
  destruct (split_classes_spec y cs n_i remaining rng1) as (Hperm & Hltr & Hlte & Hcnt & Hnone).
  { apply NoDup_unique. }
  { lia. }
  { unfold remaining. rewrite length_zip_with. lia. }
  { intros j c n t Hj Hnj Htj. unfold remaining in Htj.
    apply lookup_zip_with_Some in Htj as (C & n' & -> & Hcc & Hn').
    unfold cc in Hcc. rewrite list_lookup_fmap, Hj in Hcc. injection Hcc as <-.
    assert (n' = n) as -> by congruence.
    destruct (Hn_i j c n Hj Hnj) as [? _]. lia. }
  destruct (split_classes n_i remaining ((λ c, where_ c y) <$> cs) rng1)
    as [[train0 test0] rng2]. simpl in Hperm, Hltr, Hlte, Hcnt, Hnone.
  pose proof (shuffle_Permutation train0 rng2) as Htr.
  destruct (shuffle train0 rng2) as [train rng3]. simpl in Htr.
  pose proof (shuffle_Permutation test0 rng3) as Hte.
  destruct (shuffle test0 rng3) as [test rng4]. simpl in Hte.
  exists train, test. split_and!; [done|..].
  - rewrite Htr, Hte, Hperm. apply where_partition.
  - rewrite Htr, Hltr. lia.
  - rewrite Hte, Hlte. lia.
  - intros c. rewrite Htr, Hte.
    destruct (decide (c ∈ cs)) as [Hc|Hc].
    + apply list_elem_of_lookup in Hc as [j Hj].
      destruct (lookup_lt_is_Some_2 n_i j) as [n Hnj].
      { rewrite Hln, Hlcc. by eapply lookup_lt_Some. }
      assert (remaining !! j = Some (count_of c y - n)) as Htj.
      { unfold remaining. apply lookup_zip_with_Some. exists (count_of c y), n.
        split_and!; [done| |done]. unfold cc. by rewrite list_lookup_fmap, Hj. }
      destruct (Hcnt j c n _ Hj Hnj Htj) as [-> ->].
      destruct (Hn_i j c n Hj Hnj) as [Hle [H1 H2]].
      unfold proportional. split_and!; [done|done|nia|nia].
    + destruct (Hnone c Hc) as [-> ->].
      rewrite count_of_not_in by (by rewrite <- elem_of_unique).
      unfold proportional. lia.
Qed.

Lemma length_take_rows {A} (a : list A) (idx : list nat) :
  Forall (λ i, i < length a) idx → length (take_rows a idx) = length idx.
Proof.
  unfold take_rows. induction 1 as [|i idx Hi Hidx IH]; [done|]. csimpl.
  destruct (lookup_lt_is_Some_2 a i Hi) as [x ->]. simpl. by rewrite IH.
Qed.

(** C5: on a data set in which every class has at least two members and
    both sizes reach the number of classes, line 56 returns a training
    and a test part that together are a rearrangement of all records
    (so they share none and miss none); the test part has a fifth of the
    records, rounded up, the training part the rest; and in each part
    the number of records of a class is within one record of that class's
    share: [k * n] and [C * n'] differ by at most [n], for [k] of the
    [n'] records of the part and [C] of all [n] records in the class.
    The split is a function of its arguments: the generator is created
    from the seed 42 inside the call. *)
Theorem stratified_split (X : list (list cell)) (y : list Z) :
  let n := length y in
  let n_test := (n + 4) / 5 in
  let n_train := n - n_test in
  length X = n → y ≠ [] →
  Forall (λ c, 2 ≤ count_of c y) (unique y) →
  length (unique y) ≤ n_train → length (unique y) ≤ n_test →
  ∃ train test,
    train_test_split X y (1 # 5) 42
    = Ok (take_rows X train, take_rows X test, take_rows y train, take_rows y test)
    ∧ train ++ test ≡ₚ seq 0 n
    ∧ NoDup train ∧ NoDup test ∧ (∀ i, i ∈ train → i ∉ test)
    ∧ (∀ i, i < n → i ∈ train ∨ i ∈ test)
    ∧ length (take_rows X train) = n_train ∧ length (take_rows y train) = n_train
    ∧ length (take_rows X test) = n_test ∧ length (take_rows y test) = n_test
    ∧ ∀ c,
        proportional (count_of c (take_rows y train)) n_train (count_of c y) n
        ∧ proportional (count_of c (take_rows y test)) n_test (count_of c y) n.
Proof.
  intros n n_test n_train HX Hy Htwo Hktrain Hktest.
  assert (0 < length (unique y)) as Hk.
  { destruct y as [|c y]; [done|].
    assert (c ∈ unique (c :: y)) as Hc by (apply elem_of_unique; left).
    destruct (unique (c :: y)); [by apply elem_of_nil in Hc|simpl; lia]. }
  assert (n_test ≤ n) as Hle.
  { unfold n_test. apply Nat.Div0.div_le_upper_bound. lia. }
  destruct (StratifiedShuffleSplit_spec y n_train n_test 42)
    as (train & test & Hsplit & Hperm & Hltr & Hlte & Hprop); [lia|lia|done..|].
  assert (NoDup (train ++ test)) as Hnd by (rewrite Hperm; apply NoDup_seq).
  apply NoDup_app in Hnd as (Hndtr & Hdisj & Hndte).
  assert (∀ i, i ∈ train ++ test → i < n) as Hrange.
  { intros i Hi. rewrite Hperm in Hi. apply elem_of_seq in Hi. lia. }
  assert (Forall (λ i, i < n) train ∧ Forall (λ i, i < n) test) as [Hrtr Hrte].
  { split; apply Forall_forall; intros i Hi; apply Hrange, elem_of_app; auto. }
  exists train, test. split_and!; try done.
  - unfold train_test_split. rewrite decide_False by (fold n; lia).
    rewrite HX, ceil_fifth. fold n n_test n_train.
    rewrite decide_False by lia. by rewrite Hsplit.
  - intros i Hi. apply elem_of_app. rewrite Hperm. apply elem_of_seq. lia.
  - rewrite length_take_rows; [done|by rewrite HX].
  - by rewrite length_take_rows.
  - rewrite length_take_rows; [done|by rewrite HX].
  - by rewrite length_take_rows.
  - intros c. rewrite !count_of_take_rows. apply Hprop.
Qed.

End Split.

Lemma stratified_split_witness :
  ∃ train test,
    train_test_split (replicate 15 []) [1; 0; 1; 0; 1; 0; 1; 1; 1; 0; 1; 0; 1; 1; 0] (1 # 5) 42
    = Ok (take_rows (replicate 15 []) train, take_rows (replicate 15 []) test,
          take_rows [1; 0; 1; 0; 1; 0; 1; 1; 1; 0; 1; 0; 1; 1; 0] train,
          take_rows [1; 0; 1; 0; 1; 0; 1; 1; 1; 0; 1; 0; 1; 1; 0] test)
    ∧ train ++ test ≡ₚ seq 0 15.
Proof.
  destruct (stratified_split (H := Toy.numpy) (replicate 15 [])
              [1; 0; 1; 0; 1; 0; 1; 1; 1; 0; 1; 0; 1; 1; 0])
    as (train & test & Hsplit & Hperm & _).
  - reflexivity.
  - discriminate.
  - apply (bool_decide_unpack _). by vm_compute.
  - apply (bool_decide_unpack _). by vm_compute.
  - apply (bool_decide_unpack _). by vm_compute.
  - exists train, test. split; [exact Hsplit|exact Hperm].
Defined.



(** ** More on lines 15-46 *)

Section Extraction.
Context `{RDKit, Sklearn, NumpyRandom}.

Lemma length_calls (xs : list cell) :
  Forall (λ x, is_str x = true) xs → length (calls xs) = length xs.
Proof.
  induction 1 as [|x xs Hx Hxs IH]; [done|].
  rewrite calls_cons, length_app, IH. by destruct x.
Qed.

Lemma survivors_strings csv : Forall (λ x, is_str x = true) (smiles <$> survivors csv).
Proof.
  rewrite Forall_fmap. apply Forall_forall. intros r Hr.
  apply list_elem_of_filter in Hr as [Hp _]. by apply parses_is_str.
Qed.

(** X1: on a table with string identifiers of which at least one
    parses, lines 15-46 call the parser once on every identifier that is
    present (line 31), in row order, and then once more on every
    identifier that parsed (line 35); they do nothing else to the run's
    state.  An identifier that parses is
    thus parsed twice, one that does not parse once, a missing one
    never.  A table of which no identifier parses is left aside here and
    in the next two statements: the mask of line 36 is then an empty
    column. *)
Theorem parser_calls csv σ :
  well_formed csv → "smiles" ∈ columns csv → identifiers_are_strings csv →
  survivors csv ≠ [] →
  let σ' := (prepare csv σ).2 in
  log σ' = log σ ++ calls (smiles <$> cleaned csv) ++ calls (smiles <$> survivors csv)
  ∧ length (calls (smiles <$> cleaned csv)) = length (cleaned csv)
  ∧ length (calls (smiles <$> survivors csv)) = length (survivors csv)
  ∧ Forall (λ ev, ∃ s, ev = MolFromSmiles_called s)
           (calls (smiles <$> cleaned csv) ++ calls (smiles <$> survivors csv))
  ∧ heap σ' = heap σ ∧ clock σ' = clock σ.
Proof.
  intros (_ & Hnd & _) Hs Hstr _. cbv zeta.
  rewrite prepare_run by done. cbn [snd]. split_and!; try done.
  - rewrite length_calls, length_fmap; [done|]. by rewrite Forall_fmap.
  - rewrite length_calls, length_fmap; [done|]. apply survivors_strings.
  - apply Forall_app. split; apply calls_parse_only.
Qed.

(** [apply] stops at the first value the function refuses. *)
Lemma apply_raises (f : cell → M cell) (pure : cell → cell) (s1 s2 : Series) ic e σ :
  (∀ x σ, is_str x = true → f x σ = (Ok (pure x), logged (calls [x]) σ)) →
  (∀ σ, f ic.2 σ = (Raise e, σ)) →
  Forall (λ ic, is_str ic.2 = true) s1 →
  apply f (s1 ++ ic :: s2) σ = (Raise e, logged (calls s1.*2) σ).
Proof.
  intros Hf He Hs. revert σ. induction Hs as [|[i x] s Hx Hs IH]; intros σ.
  - unfold apply. simpl. rewrite logged_nil.
    erewrite bind_Raise; [reflexivity|]. erewrite bind_Raise; [reflexivity|apply He].
  - unfold apply in *. simpl.
    erewrite bind_Ok; [|erewrite bind_Ok; [|by apply Hf]; reflexivity].
    erewrite bind_Raise; [|apply IH].
    rewrite logged_logged, <- calls_cons. reflexivity.
Qed.

Lemma compute_descriptors_refuses x σ :
  is_str x = false →
  compute_descriptors x σ
  = (Raise (TypeError "MolFromSmiles: argument is not a string"), σ).
Proof. by destruct x. Qed.

(** X2: when an identifier that is present is not a string (a number,
    say), line 31 fails with a TypeError at that record: the parser has
    been called on the identifiers before it only, and the run stops
    there. *)
Theorem non_string_identifier csv σ pre r post :
  "smiles" ∈ columns csv →
  cleaned csv = pre ++ r :: post →
  Forall (λ r, is_str (smiles r) = true) pre →
  is_str (smiles r) = false →
  script csv σ
  = (Raise (TypeError "MolFromSmiles: argument is not a string"),
     logged (calls (smiles <$> pre)) σ).
Proof.
  intros Hs Hcleaned Hpre Hr.
  unfold script. erewrite bind_Raise; [reflexivity|].
  unfold prepare, load, dropna. rewrite decide_True by done.
  erewrite bind_Ok by reflexivity.
  erewrite bind_Raise; [reflexivity|].
  unfold add_features, getitem. cbn [columns rows]. rewrite decide_True by done.
  erewrite bind_Ok by reflexivity.
  erewrite bind_Raise; [reflexivity|].
  change (filter _ (rows csv)) with (cleaned csv). rewrite Hcleaned.
  rewrite fmap_app, fmap_cons.
  erewrite apply_raises.
  - rewrite <- list_fmap_compose. reflexivity.
  - apply compute_descriptors_str.
  - intros σ0. by apply compute_descriptors_refuses.
  - by rewrite Forall_fmap.
Qed.

Lemma rows_extracted csv :
  (λ r, Row (ix r) (revalidated r)) <$> rows (featured_table csv)
  = (λ r, Row (ix r) (revalidated (Row (ix r) (with_features r)))) <$> survivors csv.
Proof. unfold featured_table. cbn [rows]. by rewrite <- list_fmap_compose. Qed.

Lemma columns_extracted (cols : list string) :
  filter (λ c, c ≠ "valid_smiles")
         (let cols' := if decide ("features" ∈ cols) then cols else cols ++ ["features"] in
          if decide ("valid_smiles" ∈ cols') then cols' else cols' ++ ["valid_smiles"])
  = filter (λ c, c ≠ "valid_smiles") cols
    ++ (if decide ("features" ∈ cols) then [] else ["features"]).
Proof.
  cbv zeta.
  assert (∀ l : list string,
            filter (λ c, c ≠ "valid_smiles")
                   (if decide ("valid_smiles" ∈ l) then l else l ++ ["valid_smiles"])
            = filter (λ c, c ≠ "valid_smiles") l) as Hdrop.
  { intros l. case_decide; [done|]. rewrite filter_app.
    rewrite (filter_cons_False (λ c, c ≠ "valid_smiles")) by (intros Hne; by apply Hne).
    by rewrite filter_nil, app_nil_r. }
  rewrite Hdrop. case_decide; [by rewrite app_nil_r|].
  rewrite filter_app. f_equal.
Qed.

(** X3: on a table with string identifiers of which at least one
    parses, lines 15-37 return the records whose identifier parses, in
    their order and under the index labels they had in the input (the
    index is not renumbered here); in each of them the feature cell
    holds what [compute_descriptors] returned for the identifier, and
    the cell under every other label, [valid_smiles] apart, is the
    input's. *)
Theorem extraction_keeps_cells csv σ :
  well_formed csv → "smiles" ∈ columns csv → identifiers_are_strings csv →
  survivors csv ≠ [] →
  ∃ df σ',
    extraction csv σ = (Ok df, σ')
    ∧ ix <$> rows df = ix <$> survivors csv
    ∧ ∀ i r, survivors csv !! i = Some r →
        ∃ r', rows df !! i = Some r' ∧ ix r' = ix r
              ∧ get "features" (cells r') = features_of (smiles r)
              ∧ ∀ n, n ≠ "features" → n ≠ "valid_smiles" →
                     get n (cells r') = get n (cells r).
Proof.
  intros (_ & Hnd & _) Hs Hstr Hsome. eexists _, _. split; [by apply extraction_ok|].
  cbn [rows]. rewrite rows_extracted. split.
  - rewrite <- list_fmap_compose. by apply list_fmap_ext.
  - intros i r Hr. eexists. split; [by rewrite list_lookup_fmap, Hr|].
    cbn [ix cells]. split; [done|]. unfold revalidated, with_features. cbn [cells]. split.
    + rewrite get_drop_ne, get_assign_ne, get_assign_eq by done. done.
    + intros n Hn1 Hn2. by rewrite get_drop_ne, !get_assign_ne by done.
Qed.

(** X4: on such a table lines 15-37 keep the table well formed.  Its
    columns are the input's without any column named [valid_smiles]
    (lines 35-37 add a column of that name and drop it again, and an
    input column of the same name goes with it), followed by [features]
    unless the input already had a column of that name, which is then
    overwritten in place. *)
Theorem extraction_well_formed csv σ :
  well_formed csv → "smiles" ∈ columns csv → identifiers_are_strings csv →
  survivors csv ≠ [] →
  ∃ df σ',
    extraction csv σ = (Ok df, σ')
    ∧ well_formed df
    ∧ columns df
      = filter (λ c, c ≠ "valid_smiles") (columns csv)
        ++ (if decide ("features" ∈ columns csv) then [] else ["features"])
    ∧ ("valid_smiles" ∉ columns df) ∧ "smiles" ∈ columns df ∧ "features" ∈ columns df.
Proof.
  intros (Hcols & Hnd & Hrect) Hs Hstr Hsome. eexists _, _. split; [by apply extraction_ok|].
  cbn [columns rows].
  change (columns (featured_table csv))
    with (if decide ("features" ∈ columns csv) then columns csv
          else columns csv ++ ["features"]).
  pose proof (columns_extracted (columns csv)) as Hce. cbv zeta in Hce.
  assert (∀ l : list string, "valid_smiles" ∉ filter (λ c, c ≠ "valid_smiles") l) as Hgone.
  { intros l [Hne _]%list_elem_of_filter. by apply Hne. }
  split_and!.
  - unfold well_formed. cbn [columns rows]. split_and!.
    + rewrite Hce. apply NoDup_app. split_and!.
      * by apply NoDup_filter.
      * intros c [_ Hc]%list_elem_of_filter.
        destruct (decide ("features" ∈ columns csv)) as [Hin|Hin]; [apply not_elem_of_nil|].
        by intros ->%list_elem_of_singleton.
      * destruct (decide ("features" ∈ columns csv)); [constructor|apply NoDup_singleton].
    + rewrite rows_extracted, <- list_fmap_compose. unfold compose. cbn [ix].
      by apply NoDup_ix_filter.
    + rewrite rows_extracted, Forall_fmap. apply Forall_forall. intros r Hr.
      apply list_elem_of_filter in Hr as [_ Hr].
      rewrite Forall_forall in Hrect. specialize (Hrect r Hr).
      unfold compose, revalidated, with_features. cbn [cells].
      rewrite drop_labels, !assign_labels, Hrect. reflexivity.
  - exact Hce.
  - apply Hgone.
  - rewrite Hce. apply elem_of_app. left. by apply list_elem_of_filter.
  - rewrite Hce. destruct (decide ("features" ∈ columns csv)).
    + apply elem_of_app. left. by apply list_elem_of_filter.
    + apply elem_of_app. right. left.
Qed.

(** X5: lines 40-42, on any table whose feature cells each hold a list
    of five values: no row is lost and none is added, the index is
    renumbered 0..n-1 whatever it was, the five descriptor columns come
    after the columns the table had, and each row is the one at the same
    position with its five values appended under the descriptor
    names. *)
Theorem assemble_renumbers (d : row → list cell) df σ :
  "features" ∈ columns df →
  Forall (λ r, get "features" (cells r) = PyList (d r) ∧ length (d r) = 5%nat) (rows df) →
  ∃ df',
    assemble df σ = (Ok df', σ)
    ∧ columns df' = columns df ++ descriptor_names
    ∧ length (rows df') = length (rows df)
    ∧ ix <$> rows df' = seq 0 (length (rows df))
    ∧ ∀ i r, rows df !! i = Some r →
        rows df' !! i = Some (Row i (cells r ++ zip descriptor_names (d r))).
Proof.
  intros Hf Hrows. eexists. split; [by apply (assemble_ok d)|].
  cbn [columns rows]. split_and!.
  - done.
  - apply length_imap.
  - apply list_eq. intros i. rewrite list_lookup_fmap, list_lookup_imap.
    destruct (rows df !! i) as [r|] eqn:Hr; simpl.
    + apply lookup_lt_Some in Hr as Hlt. by rewrite lookup_seq_lt.
    + apply lookup_ge_None in Hr. symmetry. apply lookup_ge_None. by rewrite length_seq.
  - intros i r Hr. by rewrite list_lookup_imap, Hr.
Qed.

End Extraction.

(** ** More on the metrics *)

Lemma diagonal_from {A} (f : A → A → nat) (pre L : list A) :
  imap (λ i row, default 0%nat (row !! (length pre + i)%nat)) ((λ t, f t <$> pre ++ L) <$> L)
  = (λ t, f t t) <$> L.
Proof.
  revert pre. induction L as [|x L IH]; intros pre; [done|].
  csimpl. f_equal.
  - by rewrite list_lookup_fmap, Nat.add_0_r, lookup_app_r, Nat.sub_diag by lia.
  - rewrite (cons_middle x pre L), app_assoc, <- (IH (pre ++ [x])).
    apply imap_ext. intros i row _. simpl. rewrite length_app. simpl.
    do 2 f_equal. lia.
Qed.

Lemma diagonal_square {A} (f : A → A → nat) (L : list A) :
  diagonal ((λ t, f t <$> L) <$> L) = sum_list_with (λ t, f t t) L.
Proof.
  unfold diagonal. rewrite <- (sum_list_fmap (λ t, f t t) L). f_equal.
  apply (diagonal_from f [] L).
Qed.

Lemma agreeing_by_label (L : list Z) (zs : list (Z * Z)) :
  NoDup L → Forall (λ z, z.1 ∈ L) zs →
  sum_list_with (λ t, length (filter (λ tp, tp.1 = t ∧ tp.2 = t) zs)) L
  = length (filter (λ tp, tp.1 = tp.2) zs).
Proof.
  intros Hnd Hzs.
  rewrite <- (partition_count fst L (filter (λ tp, tp.1 = tp.2) zs)); [|done|].
  - apply sum_list_with_ext. intros t _. rewrite list_filter_filter.
    f_equal. apply filter_ext_in. intros [a b] _. simpl. split; intros []; split; congruence.
  - apply Forall_forall. intros z [_ Hz]%list_elem_of_filter.
    rewrite Forall_forall in Hzs. by apply Hzs.
Qed.

Lemma count_actual t (a b : list Z) :
  length a = length b → length (filter (λ tp, tp.1 = t) (zip a b)) = count_of t a.
Proof.
  unfold count_of. revert b. induction a as [|x a IH]; intros [|z b] Hlen; try done.
  simpl in *. rewrite !filter_cons. simpl.
  destruct (decide (x = t)); simpl; rewrite IH by lia; done.
Qed.

Lemma count_predicted p (a b : list Z) :
  length a = length b → length (filter (λ tp, tp.2 = p) (zip a b)) = count_of p b.
Proof.
  unfold count_of. revert b. induction a as [|x a IH]; intros [|z b] Hlen; try done.
  simpl in *. rewrite !filter_cons. simpl.
  destruct (decide (z = p)); simpl; rewrite IH by lia; done.
Qed.

Lemma zip_labels_l (a b : list Z) :
  Forall (λ z, z.1 ∈ unique (a ++ b)) (zip a b).
Proof.
  apply Forall_forall. intros [t p] Hin. rewrite elem_of_unique, elem_of_app.
  left. by eapply elem_of_zip_l.
Qed.

Lemma zip_labels_r (a b : list Z) :
  Forall (λ z, z.2 ∈ unique (a ++ b)) (zip a b).
Proof.
  apply Forall_forall. intros [t p] Hin. rewrite elem_of_unique, elem_of_app.
  right. by eapply elem_of_zip_r.
Qed.

Lemma matches_le (a b : list Z) : (matches a b ≤ length a)%nat.
Proof.
  unfold matches. etrans; [apply length_filter|]. rewrite length_zip. lia.
Qed.

Lemma matches_all (a b : list Z) :
  length a = length b → matches a b = length a ↔ b = a.
Proof.
  unfold matches. revert b. induction a as [|x a IH]; intros [|z b] Hlen; try done.
  simpl in *. rewrite filter_cons. simpl.
  pose proof (matches_le a b) as Hle. unfold matches in Hle.
  destruct (decide (x = z)) as [->|Hne]; simpl.
  - rewrite Nat.succ_inj_wd, IH by lia. split; [by intros ->|by intros [= ->]].
  - split; [lia|]. by intros [= -> ->].
Qed.

Section Metrics.
Context `{Sklearn}.

(** X6: the accuracy of line 87 is the diagonal of the confusion matrix
    of line 90 over the number of test records: the two figures the
    evaluator reports agree. *)
Theorem accuracy_is_diagonal (best_model : nat) e m X_test y_test σ :
  heap σ !! best_model = Some (Estimator e (Some m)) →
  length X_test = length y_test →
  ∃ acc cm σ',
    evaluate best_model X_test y_test σ = (Ok (acc, cm), σ')
    ∧ diagonal cm = matches y_test (infer m X_test)
    ∧ acc = (inject_Z (Z.of_nat (diagonal cm)) / inject_Z (Z.of_nat (length y_test)))%Q
    ∧ (diagonal cm ≤ length y_test)%nat.
Proof.
  intros Hbest Hlen.
  assert (length y_test = length (infer m X_test)) as Hlen' by by rewrite infer_length.
  assert (diagonal ((λ t, (λ p, cm_count y_test (infer m X_test) t p)
                          <$> unique (y_test ++ infer m X_test))
                    <$> unique (y_test ++ infer m X_test))
          = matches y_test (infer m X_test)) as Hdiag.
  { rewrite (diagonal_square (cm_count y_test (infer m X_test))).
    unfold cm_count, matches. apply agreeing_by_label; [apply NoDup_unique|apply zip_labels_l]. }
  eexists _, _, _. split_and!.
  - unfold evaluate. erewrite bind_Ok; cycle 1.
    { unfold predict. by rewrite Hbest. }
    rewrite confusion_matrix_ok by done. reflexivity.
  - exact Hdiag.
  - rewrite Hdiag. reflexivity.
  - rewrite Hdiag. apply matches_le.
Qed.

End Metrics.

(** X7: in the confusion matrix of line 90 the row of a label sums to
    the number of test records of that actual class, and its column to
    the number of records predicted in that class. *)
Theorem confusion_matrix_margins (y_true y_pred : list Z) :
  length y_true = length y_pred →
  ∃ cm,
    confusion_matrix y_true y_pred = Ok cm
    ∧ ∀ i t, unique (y_true ++ y_pred) !! i = Some t →
        (∃ row, cm !! i = Some row ∧ sum_list row = count_of t y_true)
        ∧ sum_list (column i cm) = count_of t y_pred.
Proof.
  intros Hlen. eexists. split; [by apply confusion_matrix_ok|].
  intros i t Ht. split.
  - eexists. split; [by rewrite list_lookup_fmap, Ht|].
    rewrite sum_list_fmap. unfold cm_count.
    rewrite <- (count_actual t y_true y_pred) by done.
    rewrite <- (partition_count snd (unique (y_true ++ y_pred))
                  (filter (λ tp, tp.1 = t) (zip y_true y_pred))); [|apply NoDup_unique|].
    + apply sum_list_with_ext. intros p _. rewrite list_filter_filter.
      f_equal. apply filter_ext_in. intros [a b] _. simpl. tauto.
    + apply Forall_forall. intros z [_ Hz]%list_elem_of_filter.
      pose proof (zip_labels_r y_true y_pred) as Hr. rewrite Forall_forall in Hr. by apply Hr.
  - unfold column. rewrite <- list_fmap_compose, sum_list_fmap.
    rewrite <- (count_predicted t y_true y_pred) by done.
    rewrite <- (partition_count fst (unique (y_true ++ y_pred))
                  (filter (λ tp, tp.2 = t) (zip y_true y_pred))); [|apply NoDup_unique|].
    + apply sum_list_with_ext. intros t' _. unfold compose.
      rewrite list_lookup_fmap, Ht. simpl. unfold cm_count.
      by rewrite list_filter_filter.
    + apply Forall_forall. intros z [_ Hz]%list_elem_of_filter.
      pose proof (zip_labels_l y_true y_pred) as Hl. rewrite Forall_forall in Hl. by apply Hl.
Qed.

(** X8: [accuracy_score] on as many predictions as there are labels, at
    least one: the score lies between 0 and 1, and it is 1 exactly when
    every prediction is the label. *)
Theorem accuracy_score_range (y_true y_pred : list Z) :
  length y_true = length y_pred → y_true ≠ [] →
  (0 <= accuracy_score y_true y_pred)%Q
  ∧ (accuracy_score y_true y_pred <= 1)%Q
  ∧ ((accuracy_score y_true y_pred == 1)%Q ↔ y_pred = y_true).
Proof.
  intros Hlen Hne. unfold accuracy_score.
  pose proof (matches_le y_true y_pred) as Hle.
  pose proof (matches_all y_true y_pred Hlen) as Hall.
  destruct y_true as [|c y_true]; [done|].
  set (k := matches (c :: y_true) y_pred) in *.
  set (n := length (c :: y_true)) in *.
  assert (0 < Z.of_nat n) as Hn by (subst n; simpl; lia).
  assert (inject_Z (Z.of_nat k) / inject_Z (Z.of_nat n)
          == Z.of_nat k # Z.to_pos (Z.of_nat n))%Q as Heq.
  { rewrite Qmake_Qdiv. by rewrite Z2Pos.id. }
  rewrite Heq. unfold Qle, Qeq. cbn [Qnum Qden]. rewrite Z2Pos.id by done.
  split_and!; [lia|lia|].
  rewrite <- Hall. lia.
Qed.

(** ** More on lines 55-117 *)

Lemma length_take_rows_eq {A B} (a : list A) (b : list B) (idx : list nat) :
  length a = length b → length (take_rows a idx) = length (take_rows b idx).
Proof.
  intros Hlen. unfold take_rows. induction idx as [|i idx IH]; [done|]. csimpl.
  destruct (a !! i) as [x|] eqn:Ha.
  - apply lookup_lt_Some in Ha. rewrite Hlen in Ha.
    destruct (lookup_lt_is_Some_2 b i Ha) as [z ->]. simpl. by rewrite IH.
  - apply lookup_ge_None in Ha. rewrite Hlen in Ha.
    apply lookup_ge_None in Ha. by rewrite Ha.
Qed.

Lemma zip_take_rows {A B} (a : list A) (b : list B) (idx : list nat) :
  length a = length b →
  zip (take_rows a idx) (take_rows b idx) = take_rows (zip a b) idx.
Proof.
  intros Hlen. unfold take_rows. induction idx as [|i idx IH]; [done|]. csimpl.
  rewrite lookup_zip_with.
  destruct (a !! i) as [x|] eqn:Ha; simpl.
  - apply lookup_lt_Some in Ha as Hlt. rewrite Hlen in Hlt.
    destruct (lookup_lt_is_Some_2 b i Hlt) as [z ->]. simpl. by rewrite IH.
  - apply lookup_ge_None in Ha. rewrite Hlen in Ha.
    apply lookup_ge_None in Ha. by rewrite Ha.
Qed.

Lemma take_rows_Permutation {A} (a : list A) (idx : list nat) :
  idx ≡ₚ seq 0 (length a) → take_rows a idx ≡ₚ a.
Proof.
  intros Hidx. unfold take_rows. rewrite Hidx. by rewrite <- (take_rows_all a) at 2.
Qed.

Section Refusals.
Context `{RDKit, Sklearn, NumpyRandom}.

(** Line 56 on labels the split refuses. *)
Lemma train_test_split_refuses (X : list (list cell)) (ys : list Z) :
  Exists (λ c, count_of c ys < 2)%nat (unique ys)
  ∨ ((length ys + 4) / 5 < length (unique ys))%nat →
  ∃ msg, train_test_split X ys (1 # 5) 42 = Raise (ValueError msg).
Proof.
  intros Hbad. unfold train_test_split.
  destruct (decide (length ys ≠ length X)) as [|Hlen%dec_stable]; [by eexists|].
  rewrite <- Hlen, ceil_fifth.
  destruct (decide (_ = 0%nat)); [by eexists|].
  unfold StratifiedShuffleSplit.
  destruct (decide (Exists _ _)) as [|Hall]; [by eexists|].
  destruct Hbad as [Hone|Hfew].
  { destruct Hall. by apply Exists_fmap. }
  destruct (decide (_ < length (unique ys))%nat); [by eexists|].
  rewrite decide_True by done. by eexists.
Qed.

Lemma analyse_refused X y ys σ :
  labels_of (tolist y) = Ok ys →
  Exists (λ c, count_of c ys < 2)%nat (unique ys)
  ∨ ((length ys + 4) / 5 < length (unique ys))%nat →
  ∃ msg, analyse X y σ = (Raise (ValueError msg), logged [train_test_split_called] σ).
Proof.
  intros Hy Hbad.
  destruct (train_test_split_refuses (to_numpy X) ys Hbad) as [msg Hsplit].
  exists msg. unfold analyse. erewrite bind_Raise; [reflexivity|].
  unfold tune_and_evaluate. erewrite bind_Ok by reflexivity.
  rewrite Hy. erewrite bind_Ok by reflexivity.
  rewrite Hsplit. reflexivity.
Qed.

(** X9: when some class has a single record, line 56 fails with a
    ValueError (a stratified split needs two of each class): nothing of
    the search, the evaluation or the comparison has run and no
    estimator has been created. *)
Theorem split_refuses_single_member X y ys c σ :
  labels_of (tolist y) = Ok ys → count_of c ys = 1%nat →
  ∃ msg, analyse X y σ = (Raise (ValueError msg), logged [train_test_split_called] σ).
Proof.
  intros Hy Hc. apply (analyse_refused X y ys σ Hy). left.
  apply Exists_exists. exists c. split; [|lia].
  apply elem_of_unique. destruct (decide (c ∈ ys)) as [|Hnot]; [done|].
  rewrite count_of_not_in in Hc by done. lia.
Qed.

(** X10: when a fifth of the records, rounded up, is less than the
    number of classes (two classes and at most five records, say), line
    56 fails with a ValueError, and again nothing after it has run. *)
Theorem split_refuses_few_records X y ys σ :
  labels_of (tolist y) = Ok ys →
  ((length ys + 4) / 5 < length (unique ys))%nat →
  ∃ msg, analyse X y σ = (Raise (ValueError msg), logged [train_test_split_called] σ).
Proof. intros Hy Hfew. apply (analyse_refused X y ys σ Hy). by right. Qed.

End Refusals.

Section Pairs.
Context `{NumpyRandom}.

(** X11: where line 56 accepts the data, every record goes to one of the
    two parts together with its label: the rows of [X_train] paired with
    [y_train], and those of [X_test] paired with [y_test], are between
    them the rows of X paired with y, each pair once. *)
Theorem split_keeps_pairs (X : list (list cell)) (y : list Z) :
  length X = length y → y ≠ [] →
  Forall (λ c, 2 ≤ count_of c y)%nat (unique y) →
  (length (unique y) ≤ length y - (length y + 4) / 5)%nat →
  (length (unique y) ≤ (length y + 4) / 5)%nat →
  ∃ X_train X_test y_train y_test,
    train_test_split X y (1 # 5) 42 = Ok (X_train, X_test, y_train, y_test)
    ∧ length X_train = length y_train ∧ length X_test = length y_test
    ∧ zip X_train y_train ++ zip X_test y_test ≡ₚ zip X y
    ∧ y_train ++ y_test ≡ₚ y.
Proof.
  intros HX Hy Htwo Hktrain Hktest.
  assert (0 < length (unique y))%nat as Hk.
  { destruct y as [|c y]; [done|].
    assert (c ∈ unique (c :: y)) as Hc by (apply elem_of_unique; left).
    destruct (unique (c :: y)); [by apply elem_of_nil in Hc|simpl; lia]. }
  assert ((length y + 4) / 5 ≤ length y)%nat as Hle.
  { apply Nat.Div0.div_le_upper_bound. lia. }
  destruct (StratifiedShuffleSplit_spec y (length y - (length y + 4) / 5) ((length y + 4) / 5) 42)
    as (train & test & Hsplit & Hperm & _); [lia|lia|done..|].
  eexists _, _, _, _. split_and!.
  - unfold train_test_split. rewrite decide_False by lia.
    rewrite HX, ceil_fifth. rewrite decide_False by lia. by rewrite Hsplit.
  - by apply length_take_rows_eq.
  - by apply length_take_rows_eq.
  - rewrite !zip_take_rows by done. unfold take_rows. rewrite <- omap_app.
    apply take_rows_Permutation. rewrite length_zip, HX, Nat.min_id. exact Hperm.
  - unfold take_rows. rewrite <- omap_app. by apply take_rows_Permutation.
Qed.

End Pairs.


Section Pipeline.
Context `{Sklearn, NumpyRandom}.

(** Line 78 where the folds exist. *)
Lemma GridSearchCV_fit_run (e : estimator_spec) (g : grid) X y folds best σ :
  StratifiedKFold 5 y = Some folds →
  let scores := (λ p, mean_test_score (set_params e p) (clock σ) X y folds)
                <$> ParameterGrid g in
  let obj := fresh (dom (heap σ)) in
  ParameterGrid g !! argmax scores = Some best →
  GridSearchCV_fit e g 5 X y σ
  = (Ok {| best_estimator_ := obj; best_params_ := best;
           best_index_ := argmax scores; mean_test_scores := scores |},
     {| log := log σ ++ [GridSearchCV_fit_called; fit_called obj];
        heap := <[obj := Estimator (set_params e best)
                           (Some (train (set_params e best) (clock σ) X y))]> (heap σ);
        clock := S (clock σ) |}).
Proof.
  intros Hfolds scores obj Hbest.
  unfold GridSearchCV_fit. erewrite bind_Ok by reflexivity.
  rewrite Hfolds. erewrite bind_Ok by reflexivity.
  erewrite bind_Ok by reflexivity. cbn [clock logged].
  fold scores. rewrite Hbest.
  erewrite bind_Ok by reflexivity.
  erewrite bind_Ok by reflexivity.
  erewrite bind_Ok; cycle 1.
  { unfold fit. cbn [heap log clock]. rewrite lookup_insert_eq. reflexivity. }
  unfold logged. cbn [spec heap log clock]. rewrite insert_insert_eq, <- app_assoc.
  reflexivity.
Qed.


Lemma train_test_split_lengths X ys q s X_train X_test y_train y_test :
  train_test_split X ys q s = Ok (X_train, X_test, y_train, y_test) →
  length X_train = length y_train ∧ length X_test = length y_test.
Proof.
  unfold train_test_split.
  destruct (decide (length ys ≠ length X)) as [|Hlen%dec_stable]; [done|].
  destruct (decide (_ = 0%nat)); [done|].
  destruct (StratifiedShuffleSplit _ _ _ _) as [[train test]|]; [|done].
  intros [= <- <- <- <-]. split; by apply length_take_rows_eq.
Qed.

Lemma best_candidate (score : rf_params → Q) :
  ∃ best, ParameterGrid param_grid !! argmax (score <$> ParameterGrid param_grid) = Some best.
Proof.
  destruct (argmax_spec (score <$> ParameterGrid param_grid)) as (s & Hs & _); [done|].
  apply list_lookup_fmap_Some in Hs as (best & _ & Hbest). eauto.
Qed.

(** The loop of line 113, from a store that holds the tuned model. *)
Lemma compare_models_run (best_model : nat) est X_train y_train X_test y_test σ :
  heap σ !! best_model = Some est →
  let score e w := accuracy_score y_test (infer (train e w X_train y_train) X_test) in
  ∃ σ',
    compare_models best_model X_train y_train X_test y_test σ
    = (Ok [("RandomForest", score (spec est) (clock σ));
           ("LogisticRegression", score (LogisticRegression 1000) (S (clock σ)));
           ("GradientBoosting", score GradientBoostingClassifier (S (S (clock σ))))],
       σ').
Proof.
  intros Hbest. cbv zeta.
  set (o_lr := fresh (dom (heap σ))).
  set (h2 := <[o_lr := Estimator (LogisticRegression 1000) None]> (heap σ)).
  set (o_gb := fresh (dom h2)).
  assert (heap σ !! o_lr = None) as Hlr by apply not_elem_of_dom, is_fresh.
  assert (h2 !! o_gb = None) as Hgb by apply not_elem_of_dom, is_fresh.
  assert (o_lr ≠ o_gb) as Hne.
  { intros Heq. rewrite <- Heq in Hgb. unfold h2 in Hgb. by rewrite lookup_insert_eq in Hgb. }
  assert (best_model ≠ o_lr) as Hne1 by (intros Heq; rewrite Heq in Hbest; congruence).
  assert (best_model ≠ o_gb) as Hne2.
  { intros Heq. rewrite <- Heq in Hgb. unfold h2 in Hgb.
    rewrite lookup_insert_ne in Hgb by done. congruence. }
  eexists. unfold compare_models. erewrite bind_Ok by apply new_run. cbn [heap log clock].
  fold o_lr h2. erewrite bind_Ok by apply new_run. cbn [heap log clock]. fold o_gb.
  unfold compare. cbn [mapM_ fst snd].
  erewrite bind_Ok; cycle 1.
  { apply compare_step. cbn [heap]. rewrite lookup_insert_ne by done.
    unfold h2. rewrite lookup_insert_ne by done. exact Hbest. }
  erewrite bind_Ok; cycle 1.
  { erewrite bind_Ok; cycle 1.
    { apply compare_step. cbn [heap].
      rewrite lookup_insert_ne, lookup_insert_ne by done.
      unfold h2. rewrite lookup_insert_eq. reflexivity. }
    erewrite bind_Ok; cycle 1.
    { erewrite bind_Ok; cycle 1.
      { apply compare_step. cbn [heap].
        rewrite lookup_insert_ne, lookup_insert_ne, lookup_insert_eq by done.
        reflexivity. }
      reflexivity. }
    reflexivity. }
  reflexivity.
Qed.

(** What a search that returns leaves behind. *)
Lemma GridSearchCV_fit_inv X y gs σ σ' :
  GridSearchCV_fit (RandomForestClassifier rf_defaults (Some 42)) param_grid 5 X y σ
  = (Ok gs, σ') →
  best_params_ gs ∈ ParameterGrid param_grid
  ∧ clock σ' = S (clock σ)
  ∧ heap σ' !! best_estimator_ gs
    = Some (Estimator (RandomForestClassifier (best_params_ gs) (Some 42))
                      (Some (train (RandomForestClassifier (best_params_ gs) (Some 42))
                                   (clock σ) X y))).
Proof.
  intros Hrun.
  destruct (StratifiedKFold 5 y) as [folds|] eqn:Hfolds; cycle 1.
  { unfold GridSearchCV_fit in Hrun. erewrite bind_Ok in Hrun by reflexivity.
    rewrite Hfolds in Hrun. by erewrite bind_Raise in Hrun by reflexivity. }
  destruct (best_candidate
              (λ p, mean_test_score
                      (set_params (RandomForestClassifier rf_defaults (Some 42)) p)
                      (clock σ) X y folds)) as [best Hbest].
  rewrite (GridSearchCV_fit_run _ _ X y folds best σ Hfolds Hbest) in Hrun.
  pose proof (f_equal snd Hrun) as Hs.
  pose proof (f_equal (λ x, match x.1 with Ok g => g | Raise _ => gs end) Hrun) as Hgs.
  cbn [fst snd] in Hs, Hgs. subst gs σ'.
  cbn [best_params_ best_estimator_ heap clock set_params].
  split_and!; [by eapply list_elem_of_lookup_2|done|by rewrite lookup_insert_eq].
Qed.

(** What an evaluation that returns has computed. *)
Lemma evaluate_inv (best_model : nat) e m X_test y_test scores σ σ' :
  heap σ !! best_model = Some (Estimator e (Some m)) →
  evaluate best_model X_test y_test σ = (Ok scores, σ') →
  scores.1 = accuracy_score y_test (infer m X_test)
  ∧ confusion_matrix y_test (infer m X_test) = Ok scores.2
  ∧ σ' = logged [predict_called best_model] σ.
Proof.
  intros Hbest Hrun. unfold evaluate in Hrun.
  erewrite bind_Ok in Hrun; cycle 1.
  { unfold predict. by rewrite Hbest. }
  destruct (confusion_matrix y_test (infer m X_test)) as [matrix|err] eqn:Hcm.
  - erewrite bind_Ok in Hrun by reflexivity. by injection Hrun as <- <-.
  - by erewrite bind_Raise in Hrun by reflexivity.
Qed.

(** What lines 55-95 have done when they return. *)
Lemma tune_and_evaluate_inv X y X_train X_test y_train y_test gs scores σ σ' :
  tune_and_evaluate X y σ = (Ok (X_train, X_test, y_train, y_test, gs, scores), σ') →
  let rf := RandomForestClassifier (best_params_ gs) (Some 42) in
  ∃ ys w,
    labels_of (tolist y) = Ok ys
    ∧ train_test_split (to_numpy X) ys (1 # 5) 42 = Ok (X_train, X_test, y_train, y_test)
    ∧ best_params_ gs ∈ ParameterGrid param_grid
    ∧ heap σ' !! best_estimator_ gs = Some (Estimator rf (Some (train rf w X_train y_train)))
    ∧ scores.1 = accuracy_score y_test (infer (train rf w X_train y_train) X_test)
    ∧ confusion_matrix y_test (infer (train rf w X_train y_train) X_test) = Ok scores.2.
Proof.
  intros Hrun. cbv zeta. unfold tune_and_evaluate in Hrun.
  erewrite bind_Ok in Hrun by reflexivity.
  apply bind_Ok_inv in Hrun as (ys & σ1 & Hy & Hrun).
  apply bind_Ok_inv in Hrun as ([[[Xtr Xte] ytr] yte] & σ2 & Hsplit & Hrun).
  unfold lift in Hy, Hsplit. injection Hy as Hy <-. injection Hsplit as Hsplit <-.
  cbv beta iota zeta in Hrun.
  apply bind_Ok_inv in Hrun as (gs0 & σ3 & Hsearch & Hrun).
  apply bind_Ok_inv in Hrun as (scores0 & σ4 & Heval & Hrun).
  injection Hrun as <- <- <- <- <- <- <-.
  destruct (is_continuous (tolist y)) eqn:Hcont.
  { apply bind_Ok_inv in Heval as (pred & σ5 & _ & Hraise). done. }
  rewrite andb_false_l in Hsearch.
  apply GridSearchCV_fit_inv in Hsearch as (Hbest & Hclock & Hheap).
  destruct (evaluate_inv _ _ _ _ _ _ _ _ Hheap Heval) as (Hacc & Hcm & ->).
  exists ys, (clock (logged [train_test_split_called] σ)). by split_and!.
Qed.

(** X13: whenever lines 55-117 run to completion, the selected
    combination is one of the grid, the comparison lists RandomForest,
    LogisticRegression and GradientBoosting in this order, and the
    accuracy it reports for the tuned forest is the accuracy the
    evaluator reported at line 87, although the loop of line 113 has
    fitted the forest again. *)
Theorem comparison_repeats_evaluation X y r σ σ' :
  analyse X y σ = (Ok r, σ') →
  best_params r ∈ ParameterGrid param_grid
  ∧ ∃ acc_lr acc_gb,
      comparison r = [("RandomForest", accuracy r); ("LogisticRegression", acc_lr);
                      ("GradientBoosting", acc_gb)].
Proof.
  intros Hrun. unfold analyse in Hrun.
  apply bind_Ok_inv in Hrun as ([[[[[Xtr Xte] ytr] yte] gs] scores] & σ1 & Htune & Hrun).
  cbv beta iota in Hrun.
  apply bind_Ok_inv in Hrun as (accs & σ2 & Hcmp & Hrun).
  injection Hrun as <- <-. cbn [best_params accuracy comparison].
  apply tune_and_evaluate_inv in Htune as (ys & w & _ & _ & Hbest & Hheap & Hacc & _).
  split; [done|].
  destruct (compare_models_run _ _ Xtr ytr Xte yte σ1 Hheap) as [σ3 Hcmp'].
  cbv zeta in Hcmp'. rewrite Hcmp' in Hcmp. injection Hcmp as <- _. cbn [spec].
  eexists _, _. do 2 f_equal. rewrite Hacc. do 2 f_equal. apply train_seeded.
Qed.

End Pipeline.

(** ** The further properties, on the small instance *)

Lemma parser_calls_witness :
  log (prepare Toy.csv Toy.σ0).2
  = [MolFromSmiles_called "CCO"; MolFromSmiles_called "xyz"; MolFromSmiles_called "C";
     MolFromSmiles_called "CCO"; MolFromSmiles_called "C"].
Proof.
  pose proof (parser_calls Toy.csv Toy.σ0 Toy_csv_well_formed
                (in_columns "smiles" Toy.csv eq_refl) Toy_csv_strings
                Toy_csv_survivors) as Hcalls.
  cbv zeta in Hcalls. destruct Hcalls as (Hlog & _). rewrite Hlog. by vm_compute.
Defined.

Lemma non_string_identifier_witness :
  script Toy.csv_numeric Toy.σ0
  = (Raise (TypeError "MolFromSmiles: argument is not a string"),
     logged [MolFromSmiles_called "CCO"] Toy.σ0).
Proof.
  apply (non_string_identifier Toy.csv_numeric Toy.σ0
           [Row 0 [("p_np", Int 1); ("smiles", Str "CCO")]]
           (Row 1 [("p_np", Int 0); ("smiles", Int 7)])
           [Row 2 [("p_np", Int 1); ("smiles", Str "C")]]).
  - apply in_columns. reflexivity.
  - by vm_compute.
  - repeat constructor.
  - reflexivity.
Defined.

Lemma extraction_keeps_cells_witness :
  ∃ df σ', extraction Toy.csv Toy.σ0 = (Ok df, σ') ∧ ix <$> rows df = [0; 3]%nat.
Proof.
  destruct (extraction_keeps_cells Toy.csv Toy.σ0 Toy_csv_well_formed
              (in_columns "smiles" Toy.csv eq_refl) Toy_csv_strings Toy_csv_survivors)
    as (df & σ' & Hrun & Hix & _).
  exists df, σ'. split; [exact Hrun|]. rewrite Hix. by vm_compute.
Defined.

Lemma extraction_well_formed_witness :
  ∃ df σ', extraction Toy.csv Toy.σ0 = (Ok df, σ')
           ∧ columns df = ["name"; "p_np"; "smiles"; "features"].
Proof.
  destruct (extraction_well_formed Toy.csv Toy.σ0 Toy_csv_well_formed
              (in_columns "smiles" Toy.csv eq_refl) Toy_csv_strings Toy_csv_survivors)
    as (df & σ' & Hrun & _ & Hcols & _).
  exists df, σ'. split; [exact Hrun|]. rewrite Hcols. by vm_compute.
Defined.

Lemma assemble_renumbers_witness :
  ∃ df', assemble Toy.df_featured Toy.σ0 = (Ok df', Toy.σ0) ∧ ix <$> rows df' = [0; 1]%nat.
Proof.
  destruct (assemble_renumbers Toy.listed Toy.df_featured Toy.σ0) as (df' & Hrun & _ & _ & Hix & _).
  - apply in_columns. reflexivity.
  - repeat constructor.
  - exists df'. split; [exact Hrun|exact Hix].
Defined.

Lemma accuracy_is_diagonal_witness :
  ∃ acc cm σ', evaluate 0 [[]; []; []] [1; 0; 1] Toy.σ1 = (Ok (acc, cm), σ')
               ∧ diagonal cm = 2%nat.
Proof.
  destruct (accuracy_is_diagonal (H := Toy.sklearn) 0 GradientBoostingClassifier 1
              [[]; []; []] [1; 0; 1] Toy.σ1)
    as (acc & cm & σ' & Hrun & Hdiag & _).
  - by vm_compute.
  - reflexivity.
  - exists acc, cm, σ'. split; [exact Hrun|]. rewrite Hdiag. by vm_compute.
Defined.

Lemma confusion_matrix_margins_witness :
  ∃ cm, confusion_matrix [0; 1; 1; 0] [1; 1; 0; 0] = Ok cm ∧ sum_list (column 0 cm) = 2%nat.
Proof.
  destruct (confusion_matrix_margins [0; 1; 1; 0] [1; 1; 0; 0] eq_refl) as (cm & Hcm & Hsum).
  exists cm. split; [exact Hcm|]. by destruct (Hsum 0%nat 0 eq_refl) as [_ ->].
Defined.

Lemma accuracy_score_range_witness : Qle (accuracy_score [1; 0; 1] [1; 1; 1]) 1.
Proof.
  destruct (accuracy_score_range [1; 0; 1] [1; 1; 1]) as (_ & Hle & _);
    [reflexivity|discriminate|exact Hle].
Defined.

Lemma split_refuses_single_member_witness :
  (∃ msg, analyse (Toy.X_rows 3) Toy.y_single Toy.σ0
          = (Raise (ValueError msg), logged [train_test_split_called] Toy.σ0))
  ∧ analyse (Toy.X_rows 3) Toy.y_single Toy.σ0
    = (Raise (ValueError "The least populated class in y has only 1 member"),
       logged [train_test_split_called] Toy.σ0).
Proof.
  split; [|by vm_compute].
  apply (split_refuses_single_member (Toy.X_rows 3) Toy.y_single [1; 0; 1] 0 Toy.σ0);
    reflexivity.
Defined.

Lemma split_refuses_few_records_witness :
  (∃ msg, analyse (Toy.X_rows 4) Toy.y_small Toy.σ0
          = (Raise (ValueError msg), logged [train_test_split_called] Toy.σ0))
  ∧ analyse (Toy.X_rows 4) Toy.y_small Toy.σ0
    = (Raise (ValueError
                "The test_size should be greater or equal to the number of classes"),
       logged [train_test_split_called] Toy.σ0).
Proof.
  split; [|by vm_compute].
  apply (split_refuses_few_records (Toy.X_rows 4) Toy.y_small [1; 0; 1; 0] Toy.σ0).
  - reflexivity.
  - vm_compute. lia.
Defined.

Lemma split_keeps_pairs_witness :
  ∃ X_train X_test y_train y_test,
    train_test_split (replicate 15 []) [1; 0; 1; 0; 1; 0; 1; 1; 1; 0; 1; 0; 1; 1; 0] (1 # 5) 42
    = Ok (X_train, X_test, y_train, y_test)
    ∧ y_train ++ y_test ≡ₚ [1; 0; 1; 0; 1; 0; 1; 1; 1; 0; 1; 0; 1; 1; 0].
Proof.
  destruct (split_keeps_pairs (H := Toy.numpy) (replicate 15 [])
              [1; 0; 1; 0; 1; 0; 1; 1; 1; 0; 1; 0; 1; 1; 0])
    as (X_train & X_test & y_train & y_test & Hsplit & _ & _ & _ & Hperm).
  - reflexivity.
  - discriminate.
  - apply (bool_decide_unpack _). by vm_compute.
  - apply (bool_decide_unpack _). by vm_compute.
  - apply (bool_decide_unpack _). by vm_compute.
  - exists X_train, X_test, y_train, y_test. split; [exact Hsplit|exact Hperm].
Defined.


Lemma comparison_repeats_evaluation_witness :
  ∃ r σ',
    analyse (X_of Toy.csv_rare_negative) (y_of Toy.csv_rare_negative) Toy.σ0 = (Ok r, σ')
    ∧ ∃ acc_lr acc_gb,
        comparison r = [("RandomForest", accuracy r); ("LogisticRegression", acc_lr);
                        ("GradientBoosting", acc_gb)].
Proof.
  assert (∃ r σ', analyse (X_of Toy.csv_rare_negative) (y_of Toy.csv_rare_negative) Toy.σ0
                  = (Ok r, σ')) as (r & σ' & Hrun).
  { eexists _, _. by vm_compute. }
  exists r, σ'. split; [exact Hrun|].
  exact (proj2 (comparison_repeats_evaluation _ _ _ _ _ Hrun)).
Defined.
